(** * AIManager: a multi-provider failover router

    Shallow embedding of [src/services/ai_manager.py] (class [AIManager])
    and the properties of its health ledger, selection and dispatch.

    Conventions of the embedding.
    - A Python [int] is a [Z]; a timestamp ([time.time()], a float number
      of seconds, and [datetime.now()]) is a [Z] number of seconds.  One
      operation reads the clock once: it takes the reading as [now].
    - A [str] is a [string]; texts are taken to be ASCII, so [str.lower]
      is the ASCII lower-casing.
    - [self.providers] is a dict that is only ever updated in place (no
      key is added or removed): it is an association list in insertion
      order, which is also the order Python iterates it in.
    - The four ledgers [provider_failures], [last_error],
      [provider_enabled], [last_failure_time] and [rate_limits] are dicts
      keyed by name: [gmap string _].  They can receive keys that are not
      provider names (see [_generate_with_gemini]).
    - A backend (the remote model) is an oracle passed to the dispatch. *)

From Stdlib Require Import ZArith Ascii String List Lia Bool DecimalString.
From stdpp Require Import gmap strings list.

Import ListNotations.
Local Open Scope string_scope.
Local Open Scope Z_scope.

(** ** Strings *)

Definition lower_ascii (c : ascii) : ascii :=
  let n := N_of_ascii c in
  if ((65 <=? n) && (n <=? 90))%N then ascii_of_N (n + 32) else c.

(** [str.lower] *)
Fixpoint lower (s : string) : string :=
  match s with
  | EmptyString => EmptyString
  | String c r => String (lower_ascii c) (lower r)
  end.

(** [needle in hay] on strings *)
Fixpoint contains (needle hay : string) : bool :=
  if String.prefix needle hay then true
  else match hay with
       | EmptyString => false
       | String _ r => contains needle r
       end.

(** Truth value of a [str]: the empty string is false. *)
Definition nonempty (s : string) : bool :=
  match s with EmptyString => false | _ => true end.

(** ** Data model *)

(** One entry of [self.providers].  [prov_last_failure_time] is the entry's
    own ['last_failure_time'] key, read through
    [provider.get('last_failure_time')]: [__init__] does not create it, so
    it starts as [None]. *)
Record provider := {
  client : bool;                       (* truth value of ['client'] *)
  available : bool;
  priority : Z;
  error_count : Z;
  model : option string;
  models : list string;                (* huggingface only *)
  current_model_index : nat;           (* huggingface only *)
  max_errors : Z;
  last_success : option Z;
  consecutive_failures : Z;
  prov_last_failure_time : option Z
}.

(** One entry of [self.rate_limits]. *)
Record rate_limit := {
  reset_time : Z;
  attempts : Z
}.

(** The instance attributes of [AIManager], with the three module flags
    [HAS_GEMINI], [HAS_OPENAI], [HAS_GROQ_CLIENT] (constants of a run). *)
Record state := {
  providers : list (string * provider);
  provider_failures : gmap string Z;
  last_error : gmap string (option string);
  provider_enabled : gmap string bool;
  last_failure_time : gmap string (option Z);
  rate_limits : gmap string rate_limit;
  HAS_GEMINI : bool;
  HAS_OPENAI : bool;
  HAS_GROQ_CLIENT : bool
}.

(** [self.max_failures], set once in [__init__]. *)
Definition max_failures : Z := 3.

(** *** Field updates *)

Definition set_available (b : bool) (p : provider) : provider :=
  {| client := client p; available := b; priority := priority p;
     error_count := error_count p; model := model p; models := models p;
     current_model_index := current_model_index p;
     max_errors := max_errors p; last_success := last_success p;
     consecutive_failures := consecutive_failures p;
     prov_last_failure_time := prov_last_failure_time p |}.

Definition set_error_count (n : Z) (p : provider) : provider :=
  {| client := client p; available := available p; priority := priority p;
     error_count := n; model := model p; models := models p;
     current_model_index := current_model_index p;
     max_errors := max_errors p; last_success := last_success p;
     consecutive_failures := consecutive_failures p;
     prov_last_failure_time := prov_last_failure_time p |}.

Definition set_consecutive_failures (n : Z) (p : provider) : provider :=
  {| client := client p; available := available p; priority := priority p;
     error_count := error_count p; model := model p; models := models p;
     current_model_index := current_model_index p;
     max_errors := max_errors p; last_success := last_success p;
     consecutive_failures := n;
     prov_last_failure_time := prov_last_failure_time p |}.

Definition set_last_success (t : option Z) (p : provider) : provider :=
  {| client := client p; available := available p; priority := priority p;
     error_count := error_count p; model := model p; models := models p;
     current_model_index := current_model_index p;
     max_errors := max_errors p; last_success := t;
     consecutive_failures := consecutive_failures p;
     prov_last_failure_time := prov_last_failure_time p |}.

Definition set_current_model_index (i : nat) (p : provider) : provider :=
  {| client := client p; available := available p; priority := priority p;
     error_count := error_count p; model := model p; models := models p;
     current_model_index := i;
     max_errors := max_errors p; last_success := last_success p;
     consecutive_failures := consecutive_failures p;
     prov_last_failure_time := prov_last_failure_time p |}.

Definition with_providers (ps : list (string * provider)) (s : state) : state :=
  {| providers := ps; provider_failures := provider_failures s;
     last_error := last_error s; provider_enabled := provider_enabled s;
     last_failure_time := last_failure_time s; rate_limits := rate_limits s;
     HAS_GEMINI := HAS_GEMINI s; HAS_OPENAI := HAS_OPENAI s;
     HAS_GROQ_CLIENT := HAS_GROQ_CLIENT s |}.

Definition with_failures (m : gmap string Z) (s : state) : state :=
  {| providers := providers s; provider_failures := m;
     last_error := last_error s; provider_enabled := provider_enabled s;
     last_failure_time := last_failure_time s; rate_limits := rate_limits s;
     HAS_GEMINI := HAS_GEMINI s; HAS_OPENAI := HAS_OPENAI s;
     HAS_GROQ_CLIENT := HAS_GROQ_CLIENT s |}.

Definition with_last_error (m : gmap string (option string)) (s : state) : state :=
  {| providers := providers s; provider_failures := provider_failures s;
     last_error := m; provider_enabled := provider_enabled s;
     last_failure_time := last_failure_time s; rate_limits := rate_limits s;
     HAS_GEMINI := HAS_GEMINI s; HAS_OPENAI := HAS_OPENAI s;
     HAS_GROQ_CLIENT := HAS_GROQ_CLIENT s |}.

Definition with_enabled (m : gmap string bool) (s : state) : state :=
  {| providers := providers s; provider_failures := provider_failures s;
     last_error := last_error s; provider_enabled := m;
     last_failure_time := last_failure_time s; rate_limits := rate_limits s;
     HAS_GEMINI := HAS_GEMINI s; HAS_OPENAI := HAS_OPENAI s;
     HAS_GROQ_CLIENT := HAS_GROQ_CLIENT s |}.

Definition with_last_failure_time (m : gmap string (option Z)) (s : state) : state :=
  {| providers := providers s; provider_failures := provider_failures s;
     last_error := last_error s; provider_enabled := provider_enabled s;
     last_failure_time := m; rate_limits := rate_limits s;
     HAS_GEMINI := HAS_GEMINI s; HAS_OPENAI := HAS_OPENAI s;
     HAS_GROQ_CLIENT := HAS_GROQ_CLIENT s |}.

Definition with_rate_limits (m : gmap string rate_limit) (s : state) : state :=
  {| providers := providers s; provider_failures := provider_failures s;
     last_error := last_error s; provider_enabled := provider_enabled s;
     last_failure_time := last_failure_time s; rate_limits := m;
     HAS_GEMINI := HAS_GEMINI s; HAS_OPENAI := HAS_OPENAI s;
     HAS_GROQ_CLIENT := HAS_GROQ_CLIENT s |}.

(** *** Reading and writing [self.providers] *)

(** [self.providers[name]] *)
Fixpoint lookup_provider (name : string) (ps : list (string * provider)) : option provider :=
  match ps with
  | [] => None
  | (n, p) :: r => if String.eqb n name then Some p else lookup_provider name r
  end.

(** [self.providers[name][key] = v], as an update of the entry *)
Fixpoint update_provider (name : string) (f : provider -> provider)
    (ps : list (string * provider)) : list (string * provider) :=
  match ps with
  | [] => []
  | (n, p) :: r =>
      if String.eqb n name then (n, f p) :: r
      else (n, p) :: update_provider name f r
  end.

Definition get_provider (s : state) (name : string) : option provider :=
  lookup_provider name (providers s).

Definition alter_provider (name : string) (f : provider -> provider) (s : state) : state :=
  with_providers (update_provider name f (providers s)) s.

(** [list(self.providers)]: the keys, in iteration order *)
Definition provider_names (s : state) : list string := map fst (providers s).

(** [name in self.providers] *)
Definition is_provider (s : state) (name : string) : bool :=
  match get_provider s name with Some _ => true | None => false end.

(** *** Reading the ledgers

    [self.provider_enabled.get(name, True)] and
    [self.provider_failures.get(name, 0)].  The same reads stand for the
    indexing forms [self.provider_enabled[name]] and
    [self.provider_failures[name]], which the code applies to provider
    names only; [ledger_keys] below states that those keys exist, and it
    holds in every state the class can reach. *)
Definition enabled_of (s : state) (name : string) : bool :=
  default true (provider_enabled s !! name).

Definition failures_of (s : state) (name : string) : Z :=
  default 0 (provider_failures s !! name).

(** [self.last_failure_time.get(name)] *)
Definition failure_time_of (s : state) (name : string) : option Z :=
  default None (last_failure_time s !! name).

(** [self.last_error.get(name)] *)
Definition error_of (s : state) (name : string) : option string :=
  default None (last_error s !! name).

Definition available_of (s : state) (name : string) : bool :=
  match get_provider s name with Some p => available p | None => false end.

Definition priority_of (s : state) (name : string) : Z :=
  match get_provider s name with Some p => priority p | None => 0 end.

Definition error_count_of (s : state) (name : string) : Z :=
  match get_provider s name with Some p => error_count p | None => 0 end.

(** Every provider name is a key of the four ledgers of [__init__]. *)
Definition ledger_keys (s : state) : Prop :=
  forall name, In name (provider_names s) ->
    is_Some (provider_failures s !! name) /\
    is_Some (last_error s !! name) /\
    is_Some (provider_enabled s !! name) /\
    is_Some (last_failure_time s !! name).

(** ** The state after [__init__]

    [initialize_providers] sets ['client'] and ['available'] of a provider
    together, from the environment (libraries installed, API keys set):
    the four booleans say which providers came up. *)

Definition new_provider (up : bool) (prio : Z) (m : option string)
    (ms : list string) (maxe : Z) : provider :=
  {| client := up; available := up; priority := prio; error_count := 0;
     model := m; models := ms; current_model_index := 0;
     max_errors := maxe; last_success := None; consecutive_failures := 0;
     prov_last_failure_time := None |}.

Definition init_providers (g q o h : bool) : list (string * provider) :=
  [ ("gemini", new_provider g 1 (Some "gemini-2.0-flash-exp") [] 2);
    ("groq", new_provider q 2 (Some "llama3-70b-8192") [] 2);
    ("openai", new_provider o 3 (Some "gpt-3.5-turbo") [] 2);
    ("huggingface",
      new_provider h 4 None
        ["HuggingFaceH4/zephyr-7b-beta"; "google/flan-t5-base"] 3) ].

(** [{name: v for name in self.providers}] *)
Definition dict_of_names {V} (v : V) (names : list string) : gmap string V :=
  list_to_map (map (fun n => (n, v)) names).

Definition init_state (hg ho hq : bool) (g q o h : bool) : state :=
  let ps := init_providers g q o h in
  {| providers := ps;
     provider_failures := dict_of_names 0 (map fst ps);
     last_error := dict_of_names None (map fst ps);
     provider_enabled := dict_of_names true (map fst ps);
     last_failure_time := dict_of_names None (map fst ps);
     rate_limits := ∅;
     HAS_GEMINI := hg; HAS_OPENAI := ho; HAS_GROQ_CLIENT := hq |}.

(** ** Recording outcomes *)

(** [_record_success] *)
Definition _record_success (provider_name : string) (now : Z) (s : state) : state :=
  if is_provider s provider_name then
    let s := alter_provider provider_name (set_consecutive_failures 0) s in
    let s := with_failures (<[provider_name := 0]> (provider_failures s)) s in
    let s := with_last_error (<[provider_name := None]> (last_error s)) s in
    let s := with_last_failure_time (<[provider_name := None]> (last_failure_time s)) s in
    let s := with_enabled (<[provider_name := true]> (provider_enabled s)) s in
    alter_provider provider_name (set_last_success (Some now)) s
  else s.

(** [_record_failure] *)
Definition _record_failure (provider_name error_msg : string) (now : Z) (s : state) : state :=
  if negb (is_provider s provider_name) then s
  else
    let s := with_failures
               (<[provider_name := failures_of s provider_name + 1]> (provider_failures s)) s in
    let s := with_last_error (<[provider_name := Some error_msg]> (last_error s)) s in
    let s := alter_provider provider_name
               (fun p => set_error_count (error_count p + 1) p) s in
    let s := with_last_failure_time (<[provider_name := Some now]> (last_failure_time s)) s in
    if max_failures <=? failures_of s provider_name
    then with_enabled (<[provider_name := false]> (provider_enabled s)) s
    else s.

(** Truth value of [extended_timeout]: [None] and [0] are false. *)
Definition given (extended_timeout : option Z) : bool :=
  match extended_timeout with
  | Some e => negb (e =? 0)
  | None => false
  end.

(** The [reset_minutes] that [_handle_rate_limit] computes.  [//] is
    Python's floor division, which is [Z.div]. *)
Definition reset_minutes (error_msg : string) (extended_timeout : option Z) : Z :=
  if given extended_timeout then default 0 extended_timeout / 60
  else if contains "day" (lower error_msg) then 1440
  else if contains "hour" (lower error_msg) then 60
  else if contains "minute" (lower error_msg) then 10
  else 4.

(** [self.rate_limits.get(provider_name, {}).get('attempts', 0)] *)
Definition attempts_of (s : state) (name : string) : Z :=
  match rate_limits s !! name with Some r => attempts r | None => 0 end.

(** [_handle_rate_limit]; [datetime.now() + timedelta(minutes=m)] is
    [now + 60 * m] seconds. *)
Definition _handle_rate_limit (provider_name error_msg : string)
    (extended_timeout : option Z) (now : Z) (s : state) : state :=
  let m := reset_minutes error_msg extended_timeout in
  let s := with_rate_limits
             (<[provider_name := {| reset_time := now + 60 * m;
                                    attempts := attempts_of s provider_name + 1 |}]>
                (rate_limits s)) s in
  let s := _record_failure provider_name error_msg now s in
  let s := with_enabled (<[provider_name := false]> (provider_enabled s)) s in
  with_last_failure_time (<[provider_name := Some now]> (last_failure_time s)) s.

(** The test both the dispatch and the provider functions apply to an
    error text: [any(keyword in error_str.lower() for keyword in [...])] *)
Definition rate_limit_keywords : list string :=
  ["429"; "rate limit"; "quota"; "exceeded"; "too many"].

Definition is_rate_limit (error_str : string) : bool :=
  existsb (fun keyword => contains keyword (lower error_str)) rate_limit_keywords.

(** ** Selection *)

(** [provider.get('last_failure_time') and
     current_time - provider['last_failure_time'] > cooldown_duration],
    with [cooldown_duration = 600].  The time read is the one stored in
    the provider's own entry; a stored [0] is false as a condition. *)
Definition cooldown_duration : Z := 600.

Definition cooled_down (now : Z) (p : provider) : bool :=
  match prov_last_failure_time p with
  | Some t => negb (t =? 0) && (cooldown_duration <? now - t)
  | None => false
  end.

(** The chain [if name == 'gemini' and HAS_GEMINI: ... elif ...] of
    [get_best_provider]: whether it assigns ['available'] once more. *)
Definition library_present (s : state) (name : string) : bool :=
  if String.eqb name "gemini" && HAS_GEMINI s then true
  else if String.eqb name "groq" && HAS_GROQ_CLIENT s then true
  else if String.eqb name "openai" && HAS_OPENAI s then true
  else String.eqb name "huggingface".

(** The four ledger writes shared by the re-admission branches and the
    resets: [provider_enabled[name] = True], [provider_failures[name] = 0],
    [last_error[name] = None], [last_failure_time[name] = None]. *)
Definition clear_ledger (name : string) (s : state) : state :=
  let s := with_enabled (<[name := true]> (provider_enabled s)) s in
  let s := with_failures (<[name := 0]> (provider_failures s)) s in
  let s := with_last_error (<[name := None]> (last_error s)) s in
  with_last_failure_time (<[name := None]> (last_failure_time s)) s.

(** Body of the first loop of [get_best_provider], for one key. *)
Definition reenable_best (now : Z) (s : state) (name : string) : state :=
  match get_provider s name with
  | None => s
  | Some p =>
      if negb (available p) && cooled_down now p then
        let s := alter_provider name (set_available true) s in
        let s := clear_ledger name s in
        if library_present s name
        then alter_provider name (set_available true) s
        else s
      else if negb (enabled_of s name) && cooled_down now p then
        let s := with_enabled (<[name := true]> (provider_enabled s)) s in
        with_last_failure_time (<[name := None]> (last_failure_time s)) s
      else s
  end.

Definition reconcile_best (now : Z) (s : state) : state :=
  fold_left (reenable_best now) (provider_names s) s.

(** Body of the first loop of [_get_next_available_provider]. *)
Definition reenable_next (now : Z) (s : state) (name : string) : state :=
  match get_provider s name with
  | None => s
  | Some p =>
      if (negb (available p) || negb (enabled_of s name)) && cooled_down now p then
        let s := alter_provider name (set_available true) s in
        clear_ledger name s
      else s
  end.

Definition reconcile_next (now : Z) (s : state) : state :=
  fold_left (reenable_next now) (provider_names s) s.

(** The filter of both selection functions:
    [provider['available'] and self.provider_enabled[name] and
     self.provider_failures[name] < self.max_failures] *)
Definition healthy (s : state) (name : string) : bool :=
  available_of s name && enabled_of s name && (failures_of s name <? max_failures).

(** [name not in exclude and ...] *)
Definition excluded (exclude : list string) (name : string) : bool :=
  existsb (String.eqb name) exclude.

Definition eligible (exclude : list string) (s : state) (name : string) : bool :=
  negb (excluded exclude name) && healthy s name.

(** The sort key [(x[1]['priority'], self.provider_failures[x[0]])] and
    the order of Python tuples on it. *)
Definition sort_key (s : state) (name : string) : Z * Z :=
  (priority_of s name, failures_of s name).

Definition key_le (a b : Z * Z) : bool :=
  (fst a <? fst b) || ((fst a =? fst b) && (snd a <=? snd b)).

(** [list.sort(key=...)] is a stable sort: an insertion sort that puts an
    element before the first one whose key is not smaller. *)
Fixpoint insert_by (key : string -> Z * Z) (x : string) (l : list string) : list string :=
  match l with
  | [] => [x]
  | y :: r => if key_le (key x) (key y) then x :: y :: r
              else y :: insert_by key x r
  end.

Fixpoint sort_by (key : string -> Z * Z) (l : list string) : list string :=
  match l with
  | [] => []
  | x :: r => insert_by key x (sort_by key r)
  end.

(** Body of the reset loop of [get_best_provider] (global exhaustion). *)
Definition reset_step (s : state) (name : string) : state :=
  if negb (available_of s name) then s
  else if 0 <? failures_of s name then
    let s := with_failures (<[name := 0]> (provider_failures s)) s in
    let s := with_last_error (<[name := None]> (last_error s)) s in
    let s := with_last_failure_time (<[name := None]> (last_failure_time s)) s in
    with_enabled (<[name := true]> (provider_enabled s)) s
  else s.

Definition global_reset (s : state) : state :=
  fold_left reset_step (provider_names s) s.

(** The ledger [get_best_provider] selects from: after the re-admission
    loop and, when nothing is healthy, after the reset loop. *)
Definition recover (now : Z) (s : state) : state :=
  let s1 := reconcile_best now s in
  match List.filter (healthy s1) (provider_names s1) with
  | [] => global_reset s1
  | _ => s1
  end.

(** [get_best_provider]: the name returned and the state left. *)
Definition get_best_provider (now : Z) (s : state) : option string * state :=
  let s1 := reconcile_best now s in
  let available_providers := List.filter (healthy s1) (provider_names s1) in
  let '(available_providers, s2) :=
    match available_providers with
    | [] =>
        let s2 := global_reset s1 in
        (List.filter (fun name => available_of s2 name && enabled_of s2 name)
                (provider_names s2), s2)
    | _ => (available_providers, s1)
    end in
  (head (sort_by (sort_key s2) available_providers), s2).

(** [_get_next_available_provider] *)
Definition _get_next_available_provider (exclude : list string) (now : Z) (s : state)
    : option string * state :=
  let s1 := reconcile_next now s in
  let available_providers := List.filter (eligible exclude s1) (provider_names s1) in
  (head (sort_by (sort_key s1) available_providers), s1).

(** ** Administrative reset *)

(** The condition under which [reset_provider_errors] sets ['available']. *)
Definition can_come_back (s : state) (name : string) (p : provider) : bool :=
  client p
  || (String.eqb name "gemini" && HAS_GEMINI s)
  || (String.eqb name "groq" && HAS_GROQ_CLIENT s)
  || (String.eqb name "openai" && HAS_OPENAI s).

Definition reset_one (s : state) (name : string) : state :=
  match get_provider s name with
  | None => s
  | Some p =>
      let s := alter_provider name (set_error_count 0) s in
      let s := alter_provider name (set_consecutive_failures 0) s in
      let s := with_failures (<[name := 0]> (provider_failures s)) s in
      let s := with_last_error (<[name := None]> (last_error s)) s in
      let s := with_last_failure_time (<[name := None]> (last_failure_time s)) s in
      let s := with_enabled (<[name := true]> (provider_enabled s)) s in
      if can_come_back s name p
      then alter_provider name (set_available true) s
      else s
  end.

(** [reset_provider_errors]: one provider when a non-empty name is given,
    else all of them. *)
Definition reset_provider_errors (provider_name : option string) (s : state) : state :=
  match provider_name with
  | Some name =>
      if nonempty name then reset_one s name
      else fold_left reset_one (provider_names s) s
  | None => fold_left reset_one (provider_names s) s
  end.

(** ** Provider invocation *)

(** What a backend does with one request: it returns a text (possibly
    empty) or raises an exception that carries a message. *)
Inductive reply :=
| Text (t : string)
| Raises (msg : string).

(** What [requests.post] does: a response with a status code, the
    ["generated_text"] of its JSON body and its raw text, or an exception
    (also one raised while the body is decoded). *)
Inductive http_reply :=
| Status (code : Z) (generated_text body : string)
| PostRaises (msg : string).

(** The four backends, as functions of what the code sends them. *)
Record backends := {
  gemini_generate_content : string -> Z -> reply;      (* prompt, max_output_tokens *)
  groq_generate : string -> Z -> reply;                (* prompt, max_tokens *)
  openai_create : string -> string -> Z -> reply;      (* model, prompt, max_tokens *)
  requests_post : string -> string -> Z -> http_reply  (* model, prompt, max_new_tokens *)
}.

(** One request sent to a backend. *)
Record call := {
  to_provider : string;
  with_prompt : string;
  with_tokens : Z
}.

(** How a Python call ends: it returns a value or raises. *)
Inductive outcome :=
| Returns (text : option string)
| Throws (msg : string).

(** The [except] block shared by the gemini, groq and openai functions:
    classify the message, record it under [ledger_name], re-raise. *)
Definition record_and_raise (ledger_name : string) (extended_timeout : option Z)
    (error_msg : string) (now : Z) (s : state) : state :=
  if is_rate_limit error_msg
  then _handle_rate_limit ledger_name error_msg extended_timeout now s
  else _record_failure ledger_name error_msg now s.

(** [_generate_with_gemini].  Its rate-limit branch passes the model label
    [self.providers['gemini']['model']] as the provider name. *)
Definition _generate_with_gemini (B : backends) (prompt : string) (max_tokens : Z)
    (now : Z) (s : state) : outcome * state * list call :=
  match get_provider s "gemini" with
  | None => (Throws "'gemini'", s, [])
  | Some p =>
      if negb (client p) then (Throws "Cliente Gemini não inicializado.", s, [])
      else
        let tokens := Z.min max_tokens 8192 in
        let sent := [{| to_provider := "gemini"; with_prompt := prompt;
                        with_tokens := tokens |}] in
        let failed error_msg :=
          if is_rate_limit error_msg then
            match model p with
            | Some label =>
                (Throws error_msg,
                 _handle_rate_limit label error_msg (Some 600) now s, sent)
            | None => (Throws "'model'", s, sent)
            end
          else (Throws error_msg, _record_failure "gemini" error_msg now s, sent) in
        match gemini_generate_content B prompt tokens with
        | Text t => if nonempty t then (Returns (Some t), s, sent)
                    else failed "Resposta vazia do Gemini"
        | Raises msg => failed msg
        end
  end.

(** [_generate_with_groq] *)
Definition _generate_with_groq (B : backends) (prompt : string) (max_tokens : Z)
    (now : Z) (s : state) : outcome * state * list call :=
  match get_provider s "groq" with
  | None => (Throws "'groq'", s, [])
  | Some p =>
      if negb (client p) then (Throws "Cliente Groq não inicializado.", s, [])
      else
        let tokens := Z.min max_tokens 8192 in
        let sent := [{| to_provider := "groq"; with_prompt := prompt;
                        with_tokens := tokens |}] in
        let failed error_msg :=
          (Throws error_msg, record_and_raise "groq" None error_msg now s, sent) in
        match groq_generate B prompt tokens with
        | Text t => if nonempty t then (Returns (Some t), s, sent)
                    else failed "Resposta vazia do Groq"
        | Raises msg => failed msg
        end
  end.

(** [_generate_with_openai] *)
Definition _generate_with_openai (B : backends) (prompt : string) (max_tokens : Z)
    (now : Z) (s : state) : outcome * state * list call :=
  match get_provider s "openai" with
  | None => (Throws "'openai'", s, [])
  | Some p =>
      if negb (client p) then (Throws "Cliente OpenAI não inicializado.", s, [])
      else
        let tokens := Z.min max_tokens 4096 in
        let sent := [{| to_provider := "openai"; with_prompt := prompt;
                        with_tokens := tokens |}] in
        let failed error_msg :=
          (Throws error_msg, record_and_raise "openai" None error_msg now s, sent) in
        match model p with
        | None => (Throws "'model'", record_and_raise "openai" None "'model'" now s, [])
        | Some label =>
            match openai_create B label prompt tokens with
            | Text t => if nonempty t then (Returns (Some t), s, sent)
                        else failed "Resposta vazia do OpenAI"
            | Raises msg => failed msg
            end
        end
  end.

(** [str(n)] for an [int] *)
Definition str_of_int (n : Z) : string :=
  DecimalString.NilZero.string_of_int (Z.to_int n).

(** The [for _ in range(len(config['models']))] loop of
    [_generate_with_huggingface]; [rounds] is what is left of the range. *)
Fixpoint huggingface_models (B : backends) (prompt : string) (max_tokens : Z)
    (now : Z) (rounds : nat) (s : state) (sent : list call)
    : outcome * state * list call :=
  match rounds with
  | O => (Throws "Todos os modelos HuggingFace falharam", s, sent)
  | S rounds =>
      match get_provider s "huggingface" with
      | None => (Throws "'huggingface'", s, sent)
      | Some config =>
          let model_index := current_model_index config in
          match nth_error (models config) model_index with
          | None => (Throws "list index out of range", s, sent)
          | Some label =>
              let s := alter_provider "huggingface"
                         (set_current_model_index
                            ((model_index + 1) mod length (models config))%nat) s in
              let tokens := Z.min max_tokens 1024 in
              let sent := app sent [{| to_provider := "huggingface";
                                          with_prompt := prompt;
                                          with_tokens := tokens |}] in
              match requests_post B label prompt tokens with
              | Status code generated_text body =>
                  if code =? 200 then
                    if nonempty generated_text
                    then (Returns (Some generated_text), s, sent)
                    else huggingface_models B prompt max_tokens now rounds s sent
                  else if code =? 503 then
                    huggingface_models B prompt max_tokens now rounds s sent
                  else
                    let error_msg :=
                      ("Erro " ++ str_of_int code ++ ": " ++ body)%string in
                    let s := if code =? 429
                             then _handle_rate_limit "huggingface" error_msg None now s
                             else _record_failure "huggingface" error_msg now s in
                    huggingface_models B prompt max_tokens now rounds s sent
              | PostRaises msg =>
                  huggingface_models B prompt max_tokens now rounds
                    (_record_failure "huggingface" msg now s) sent
              end
          end
      end
  end.

(** [_generate_with_huggingface] *)
Definition _generate_with_huggingface (B : backends) (prompt : string) (max_tokens : Z)
    (now : Z) (s : state) : outcome * state * list call :=
  match get_provider s "huggingface" with
  | None => (Throws "'huggingface'", s, [])
  | Some config =>
      if negb (client config)
      then (Throws "Cliente HuggingFace não inicializado.", s, [])
      else huggingface_models B prompt max_tokens now (length (models config)) s []
  end.

(** [_call_provider] *)
Definition _call_provider (B : backends) (provider_name prompt : string)
    (max_tokens : Z) (now : Z) (s : state) : outcome * state * list call :=
  if String.eqb provider_name "gemini" then _generate_with_gemini B prompt max_tokens now s
  else if String.eqb provider_name "groq" then _generate_with_groq B prompt max_tokens now s
  else if String.eqb provider_name "openai" then _generate_with_openai B prompt max_tokens now s
  else if String.eqb provider_name "huggingface"
       then _generate_with_huggingface B prompt max_tokens now s
  else (Returns None, s, []).

(** ** Dispatch *)

(** The first block of [_handle_provider_failure]: what it records for a
    provider name that is neither [None] nor empty. *)
Definition record_provider_failure (provider_name error_str : string) (now : Z)
    (s : state) : state :=
  if is_rate_limit error_str then
    if String.eqb provider_name "gemini"
    then _handle_rate_limit provider_name error_str (Some 600) now s
    else _handle_rate_limit provider_name error_str None now s
  else _record_failure provider_name error_str now s.

(** [_handle_provider_failure]: it returns the NAME of the next provider. *)
Definition _handle_provider_failure (provider_name : option string) (error_str : string)
    (now : Z) (s : state) : option string * state :=
  match provider_name with
  | Some name =>
      if nonempty name
      then _get_next_available_provider [name] now
             (record_provider_failure name error_str now s)
      else _get_next_available_provider [] now s
  | None => _get_next_available_provider [] now s
  end.

(** The keyword arguments [generate_analysis] forwards. *)
Record kwargs (T : Type) := {
  kw_max_tokens : option Z;
  kw_temperature : option T
}.
Arguments kw_max_tokens {T} _.
Arguments kw_temperature {T} _.

(** What [_try_providers] hands back: [None], the response dict, or the
    string [_handle_provider_failure] returned. *)
Inductive answer :=
| NoAnswer
| Generated (response provider_name : string)
| NextProvider (name : string).

Definition answer_of_name (o : option string) : answer :=
  match o with Some n => NextProvider n | None => NoAnswer end.

(** One run of the dispatch: the value returned, the state left, the
    providers handed to [_call_provider] and the requests sent. *)
Record run := {
  returned : answer;
  final : state;
  invoked : list string;
  requests : list call
}.

(** [return self._handle_provider_failure(provider_name, error)]: the run
    ends with what the handler returns. *)
Definition hand_over (provider_name error_str : string) (now : Z) (s : state)
    (invoked : list string) (sent : list call) : run :=
  let '(next, s) := _handle_provider_failure (Some provider_name) error_str now s in
  {| returned := answer_of_name next; final := s;
     invoked := invoked; requests := sent |}.

(** The message of the exception [_try_providers] builds when it has no
    response data. *)
Definition no_response : string := "Falha na primeira tentativa de gerar resposta.".

(** [_try_providers] *)
Definition _try_providers {T} (B : backends) (method prompt : string) (kw : kwargs T)
    (now : Z) (s : state) : run :=
  let '(best, s) := get_best_provider now s in
  match best with
  | None => {| returned := NoAnswer; final := s; invoked := []; requests := [] |}
  | Some provider_name =>
      if negb (nonempty provider_name)
      then {| returned := NoAnswer; final := s; invoked := []; requests := [] |}
      else if String.eqb method "generate" then
        let '(out, s, sent) :=
          _call_provider B provider_name prompt (default 1000 (kw_max_tokens kw)) now s in
        match out with
        | Returns (Some response) =>
            if nonempty response then
              {| returned := Generated response provider_name;
                 final := _record_success provider_name now s;
                 invoked := [provider_name]; requests := sent |}
            else
              hand_over provider_name no_response now
                (_record_failure provider_name "Resposta vazia do provedor." now s)
                [provider_name] sent
        | Returns None =>
            hand_over provider_name no_response now
              (_record_failure provider_name "Resposta vazia do provedor." now s)
              [provider_name] sent
        | Throws msg => hand_over provider_name msg now s [provider_name] sent
        end
      else hand_over provider_name no_response now s [] []
  end.

(** [generate_analysis] *)
Definition generate_analysis {T} (B : backends) (prompt : string) (max_tokens : Z)
    (temperature : T) (now : Z) (s : state) : run :=
  _try_providers B "generate" prompt
    {| kw_max_tokens := Some max_tokens; kw_temperature := Some temperature |} now s.

(** ** The operations of the class as steps of a state machine *)

Inductive operation :=
| RecordSuccess (provider_name : string)
| RecordFailure (provider_name error_msg : string)
| HandleRateLimit (provider_name error_msg : string) (extended_timeout : option Z)
| GetBestProvider
| GetNextAvailableProvider (exclude : list string)
| HandleProviderFailure (provider_name : option string) (error_str : string)
| ResetProviderErrors (provider_name : option string)
| CallProvider (B : backends) (provider_name prompt : string) (max_tokens : Z)
| GenerateAnalysis (B : backends) (prompt : string) (max_tokens : Z).

(** The state an operation leaves when the clock reads [now]. *)
Definition step (op : operation) (now : Z) (s : state) : state :=
  match op with
  | RecordSuccess n => _record_success n now s
  | RecordFailure n e => _record_failure n e now s
  | HandleRateLimit n e t => _handle_rate_limit n e t now s
  | GetBestProvider => snd (get_best_provider now s)
  | GetNextAvailableProvider ex => snd (_get_next_available_provider ex now s)
  | HandleProviderFailure n e => snd (_handle_provider_failure n e now s)
  | ResetProviderErrors n => reset_provider_errors n s
  | CallProvider B n p m => snd (fst (_call_provider B n p m now s))
  | GenerateAnalysis B p m => final (generate_analysis B p m tt now s)
  end.

(** The states of a running manager: those [__init__] builds, and those
    any sequence of operations leads to from there. *)
Inductive reachable : state -> Prop :=
| reachable_init hg ho hq g q o h :
    reachable (init_state hg ho hq g q o h)
| reachable_step op now s :
    reachable s -> reachable (step op now s).

(** Running a list of timed operations in order. *)
Definition run_all (ops : list (operation * Z)) (s : state) : state :=
  fold_left (fun s o => step (fst o) (snd o) s) ops s.

(** What holds of every reachable state (proved below).  Shape: the
    four providers of [__init__], a key for each in the ledgers, and no
    ['last_failure_time'] stored in a provider's own entry. *)
Record shaped (s : state) : Prop := {
  shaped_names : provider_names s = ["gemini"; "groq"; "openai"; "huggingface"];
  shaped_keys : ledger_keys s;
  shaped_no_time :
    forall name p, get_provider s name = Some p -> prov_last_failure_time p = None
}.

(** Counters: never negative; at the threshold the provider is disabled;
    a disabled provider has a failure on record. *)
Record sound (s : state) : Prop := {
  sound_nonneg : forall name, 0 <= failures_of s name;
  sound_threshold :
    forall name, max_failures <= failures_of s name -> enabled_of s name = false;
  sound_disabled :
    forall name, In name (provider_names s) ->
      enabled_of s name = false -> 0 < failures_of s name
}.

Definition good (s : state) : Prop := shaped s /\ sound s.

(** What the selection promises of the name it returns. *)
Definition first_eligible (exclude : list string) (s : state) (n : string) : Prop :=
  In n (provider_names s) /\
  available_of s n = true /\
  enabled_of s n = true /\
  failures_of s n < max_failures /\
  ~ In n exclude /\
  forall m, In m (provider_names s) -> eligible exclude s m = true ->
    key_le (sort_key s n) (sort_key s m) = true.

(** The selection of the spec: filter, sort, take the first. *)
Definition select (exclude : list string) (s : state) : option string :=
  head (sort_by (sort_key s) (List.filter (eligible exclude s) (provider_names s))).




(** The cap each provider function puts on the token budget:
    8192 for gemini and groq, 4096 for openai, 1024 for huggingface. *)
Definition token_cap (provider_name : string) : Z :=
  if String.eqb provider_name "gemini" then 8192
  else if String.eqb provider_name "groq" then 8192
  else if String.eqb provider_name "openai" then 4096
  else if String.eqb provider_name "huggingface" then 1024
  else 0.

(** ** Example runs *)

(** A manager just built, with gemini, groq and openai up (ranks 1, 2, 3)
    and huggingface without a key. *)
Definition fresh : state := init_state true true true true true true false.

(** Backends where gemini raises [msg] and the others answer. *)
Definition gemini_raises (msg : string) : backends :=
  {| gemini_generate_content := fun _ _ => Raises msg;
     groq_generate := fun _ _ => Text "ok";
     openai_create := fun _ _ _ => Text "ok";
     requests_post := fun _ _ _ => Status 200 "ok" "" |}.

(** Two requests in a row, at times 1000 and 1001, while gemini raises a
    generic error. *)
Definition first_request : run :=
  generate_analysis (gemini_raises "boom") "prompt" 1000 tt 1000 fresh.

Definition second_request : run :=
  generate_analysis (gemini_raises "boom") "prompt" 1000 tt 1001 (final first_request).

(** gemini rate-limited at time 1000 through the failure handler. *)
Definition gemini_limited : state :=
  step (HandleProviderFailure (Some "gemini") "429 quota exceeded") 1000 fresh.



(** A manager whose only provider up is gemini, rate-limited at time 1000. *)
Definition alone : state := init_state true true true true false false false.

Definition alone_limited : state :=
  step (HandleRateLimit "gemini" "429 quota exceeded" (Some 600)) 1000 alone.

(** ** Further operations of the class *)

(** What [reset_provider_errors] makes of an entry [p] of provider [name]:
    counters at 0, ['available'] set when the provider has a client or its
    library is installed, the rest as it was. *)
Definition reset_of (s : state) (name : string) (p p' : provider) : Prop :=
  error_count p' = 0 /\
  consecutive_failures p' = 0 /\
  available p' = available p || can_come_back s name p /\
  client p' = client p /\
  priority p' = priority p /\
  last_success p' = last_success p /\
  prov_last_failure_time p' = prov_last_failure_time p.

(** The ledger entries of [name] are the ones a reset leaves. *)
Definition cleared (s' : state) (name : string) : Prop :=
  provider_failures s' !! name = Some 0 /\
  provider_enabled s' !! name = Some true /\
  last_error s' !! name = Some None /\
  last_failure_time s' !! name = Some None.

(** The module flags of two states agree. *)
Definition same_flags (s s' : state) : Prop :=
  HAS_GEMINI s' = HAS_GEMINI s /\
  HAS_OPENAI s' = HAS_OPENAI s /\
  HAS_GROQ_CLIENT s' = HAS_GROQ_CLIENT s.

(** Nothing of [other] differs between [s] and [s']. *)
Definition untouched (s s' : state) (other : string) : Prop :=
  get_provider s' other = get_provider s other /\
  provider_failures s' !! other = provider_failures s !! other /\
  provider_enabled s' !! other = provider_enabled s !! other /\
  last_error s' !! other = last_error s !! other /\
  last_failure_time s' !! other = last_failure_time s !! other /\
  rate_limits s' !! other = rate_limits s !! other.

(** Provider [name], whose entry was [p] in [s], has been reset in [s']. *)
Definition reset_done (s : state) (p : provider) (name : string) (s' : state) : Prop :=
  cleared s' name /\
  same_flags s s' /\
  exists p', get_provider s' name = Some p' /\ reset_of s name p p'.

(** The provider names [_call_provider] dispatches on. *)
Definition known_names : list string := ["gemini"; "groq"; "openai"; "huggingface"].

(** A manager where no provider came up, and one where gemini has no key
    but groq has. *)
Definition nobody : state := init_state true true true false false false false.

Definition without_gemini : state := init_state true true true false true true false.

(** Backends that all answer. *)
Definition all_answer : backends :=
  {| gemini_generate_content := fun _ _ => Text "from gemini";
     groq_generate := fun _ _ => Text "from groq";
     openai_create := fun _ _ _ => Text "from openai";
     requests_post := fun _ _ _ => Status 200 "from huggingface" "" |}.

(** ** Relations every write respects

    A relation between the state before and the state after that is
    reflexive, transitive and holds across each elementary write of the
    class, other than the zeroing of [error_count] that only
    [reset_provider_errors] performs. *)
Record respected (R : state -> state -> Prop) : Prop := {
  across_nothing : forall s, R s s;
  across_both : forall s1 s2 s3, R s1 s2 -> R s2 s3 -> R s1 s3;
  across_available : forall n s, R s (alter_provider n (set_available true) s);
  across_consecutive : forall n s, R s (alter_provider n (set_consecutive_failures 0) s);
  across_last_success : forall n t s, R s (alter_provider n (set_last_success t) s);
  across_error_count :
    forall n s, R s (alter_provider n (fun p => set_error_count (error_count p + 1) p) s);
  across_model_index : forall n i s, R s (alter_provider n (set_current_model_index i) s);
  across_failures : forall n v s, R s (with_failures (<[n := v]> (provider_failures s)) s);
  across_last_error : forall n v s, R s (with_last_error (<[n := v]> (last_error s)) s);
  across_enabled : forall n v s, R s (with_enabled (<[n := v]> (provider_enabled s)) s);
  across_failure_time :
    forall n v s, R s (with_last_failure_time (<[n := v]> (last_failure_time s)) s);
  across_rate_limit :
    forall n t s,
      R s (with_rate_limits
             (<[n := {| reset_time := t; attempts := attempts_of s n + 1 |}]> (rate_limits s)) s)
}.

(** The operations but the administrative reset. *)
Definition is_reset (op : operation) : bool :=
  match op with ResetProviderErrors _ => true | _ => false end.

(** The registry part of a provider entry: what [__init__] fixes, and the
    entry's own ['last_failure_time'] (a key [__init__] does not create). *)
Definition registry_entry (p : provider)
    : bool * Z * option string * list string * Z * option Z :=
  (client p, priority p, model p, models p, max_errors p, prov_last_failure_time p).

(** The registries of two states agree: same provider names in the same
    order, same registry part of every entry, same module flags. *)
Definition same_registry (s s' : state) : Prop :=
  provider_names s' = provider_names s /\
  same_flags s s' /\
  forall n, registry_entry <$> get_provider s' n = registry_entry <$> get_provider s n.

(** No [error_count] is smaller in [s'] than in [s]. *)
Definition errors_kept (s s' : state) : Prop :=
  forall n, error_count_of s n <= error_count_of s' n.

(** Every rate-limit record of [s] is still in [s'], with at least as many
    attempts. *)
Definition rate_limits_kept (s s' : state) : Prop :=
  forall n r, rate_limits s !! n = Some r ->
    exists r', rate_limits s' !! n = Some r' /\ attempts r <= attempts r'.

(** A manager with only huggingface up, and backends whose huggingface
    models are all loading. *)
Definition only_huggingface : state := init_state true true true false false false true.

Definition all_loading : backends :=
  {| gemini_generate_content := fun _ _ => Text "from gemini";
     groq_generate := fun _ _ => Text "from groq";
     openai_create := fun _ _ _ => Text "from openai";
     requests_post := fun _ _ _ => Status 503 "" "loading" |}.

(** The entry of huggingface has the model list [ms] and an index inside it. *)
Definition rotation_ok (ms : list string) (s : state) : Prop :=
  exists c, get_provider s "huggingface" = Some c /\ models c = ms /\
            (current_model_index c < length ms)%nat.

(** Either a non-empty text is returned or every model was given up. *)
Definition text_or_exhausted (out : outcome) : Prop :=
  (exists t, out = Returns (Some t) /\ nonempty t = true) \/
  out = Throws "Todos os modelos HuggingFace falharam".


(** Two entries that differ at most in ['current_model_index']. *)
Definition same_but_index (c c0 : provider) : Prop :=
  client c = client c0 /\ available c = available c0 /\ priority c = priority c0 /\
  error_count c = error_count c0 /\ model c = model c0 /\ models c = models c0 /\
  max_errors c = max_errors c0 /\ last_success c = last_success c0 /\
  consecutive_failures c = consecutive_failures c0 /\
  prov_last_failure_time c = prov_last_failure_time c0.

(** The five ledgers of two states are the same dicts. *)
Definition same_ledgers (s s' : state) : Prop :=
  provider_failures s' = provider_failures s /\
  last_error s' = last_error s /\
  provider_enabled s' = provider_enabled s /\
  last_failure_time s' = last_failure_time s /\
  rate_limits s' = rate_limits s.

(** Every model of the list answers 503 to the request for [prompt]. *)
Definition all_models_loading (B : backends) (prompt : string) (max_tokens : Z)
    (ms : list string) : Prop :=
  forall label, In label ms ->
    exists generated_text body,
      requests_post B label prompt (Z.min max_tokens 1024) = Status 503 generated_text body.

(** One value of the dict [get_provider_status] returns. *)
Record status := {
  status_available : bool;
  status_priority : Z;
  status_error_count : Z;
  status_consecutive_failures : Z;
  status_last_success : option Z;
  status_last_failure_time : option Z;
  status_enabled : bool;
  status_max_errors : Z;
  status_model : string
}.

(** [get_provider_status]: one entry per provider, in iteration order. *)
Definition get_provider_status (s : state) : list (string * status) :=
  map (fun entry =>
         let name := fst entry in
         let provider := snd entry in
         (name,
          {| status_available := available provider && enabled_of s name;
             status_priority := priority provider;
             status_error_count := error_count provider;
             status_consecutive_failures := failures_of s name;
             status_last_success := last_success provider;
             status_last_failure_time := failure_time_of s name;
             status_enabled := enabled_of s name;
             status_max_errors := max_errors provider;
             status_model := default "N/A" (model provider) |}))
      (providers s).

(** [generate_content]: the ['response'] of the dict [generate_analysis]
    returned, when it is not empty.  A provider name handed back instead of
    a dict has no [get]: the [AttributeError] is caught and [None]
    returned, as for [None] and for an empty string. *)
Definition generate_content {T} (B : backends) (prompt : string) (max_tokens : Z)
    (temperature : T) (now : Z) (s : state) : option string * state :=
  let result := generate_analysis B prompt max_tokens temperature now s in
  (match returned result with
   | Generated response _ => if nonempty response then Some response else None
   | NextProvider _ => None
   | NoAnswer => None
   end,
   final result).

(** Backends where gemini raises a rate-limit error. *)
Definition gemini_throttled : backends := gemini_raises "429 quota exceeded".

(** The providers whose function records its own failure and re-raises. *)
Definition recording_names : list string := ["gemini"; "groq"; "openai"].

(** The provider a manager just built selects: the first one that came up,
    in rank order. *)
Definition first_up (g q o h : bool) : option string :=
  if g then Some "gemini"
  else if q then Some "groq"
  else if o then Some "openai"
  else if h then Some "huggingface"
  else None.

(** * Proofs *)

(** ** The association list of providers *)

Lemma lookup_update_provider name f ps n :
  lookup_provider n (update_provider name f ps) =
  if String.eqb n name then f <$> lookup_provider n ps else lookup_provider n ps.
Proof.
  induction ps as [|[m p] r IH]; simpl.
  - by destruct (String.eqb n name).
  - destruct (String.eqb_spec m name) as [->|Hm]; simpl.
    + destruct (String.eqb_spec name n) as [<-|Hn].
      * by rewrite String.eqb_refl.
      * destruct (String.eqb_spec n name); [congruence|done].
    + destruct (String.eqb_spec m n) as [<-|Hn]; [|done].
      by destruct (String.eqb_spec m name).
Qed.

Lemma names_update_provider name f ps :
  map fst (update_provider name f ps) = map fst ps.
Proof.
  induction ps as [|[m p] r IH]; simpl; [done|].
  destruct (String.eqb m name); simpl; by rewrite ?IH.
Qed.

Lemma get_provider_alter name f s n :
  get_provider (alter_provider name f s) n =
  if String.eqb n name then f <$> get_provider s n else get_provider s n.
Proof. apply lookup_update_provider. Qed.

Lemma provider_names_alter name f s :
  provider_names (alter_provider name f s) = provider_names s.
Proof. apply names_update_provider. Qed.

Lemma lookup_provider_names name ps :
  In name (map fst ps) <-> is_Some (lookup_provider name ps).
Proof.
  induction ps as [|[m p] r IH]; simpl.
  - split; [done|]. intros [? ?]; done.
  - destruct (String.eqb_spec m name) as [->|Hm].
    + split; eauto.
    + rewrite <- IH. split; [intros [?|?]; [done|done]|auto].
Qed.

Lemma is_provider_names s name :
  is_provider s name = true <-> In name (provider_names s).
Proof.
  unfold is_provider, provider_names, get_provider.
  rewrite lookup_provider_names.
  destruct (lookup_provider name (providers s)); split; try done; eauto.
Qed.

(** ** Shape is kept by every write *)

Ltac sred :=
  cbn beta iota zeta delta
    [providers provider_failures last_error provider_enabled last_failure_time
     rate_limits HAS_GEMINI HAS_OPENAI HAS_GROQ_CLIENT
     with_providers with_failures with_last_error with_enabled
     with_last_failure_time with_rate_limits] in *.

Ltac norm :=
  unfold failures_of, enabled_of, failure_time_of, error_of, available_of,
    priority_of, error_count_of, attempts_of, is_provider, get_provider,
    provider_names, alter_provider, clear_ledger in *;
  sred;
  rewrite ?lookup_update_provider, ?names_update_provider in *.

Ltac by_name n name :=
  destruct (decide (n = name)) as [->|]; simplify_map_eq.

Lemma is_Some_insert {V} (m : gmap string V) k v n :
  is_Some (m !! n) -> is_Some (<[k := v]> m !! n).
Proof. intros H. rewrite lookup_insert_is_Some. destruct (decide (k = n)); auto. Qed.

Lemma shaped_alter name f s :
  (forall p, prov_last_failure_time (f p) = prov_last_failure_time p) ->
  shaped s -> shaped (alter_provider name f s).
Proof.
  intros Hf [Hn Hk Ht]. constructor.
  - by rewrite provider_names_alter.
  - intros n Hin. rewrite provider_names_alter in Hin. apply (Hk n Hin).
  - intros n p. rewrite get_provider_alter.
    destruct (String.eqb n name); [|apply Ht].
    destruct (get_provider s n) as [q|] eqn:E; simpl; [|done].
    intros [= <-]. rewrite Hf. eauto.
Qed.

Lemma shaped_failures name v s :
  shaped s -> shaped (with_failures (<[name := v]> (provider_failures s)) s).
Proof.
  intros [Hn Hk Ht]. constructor; [done| |done].
  intros n Hin. destruct (Hk n Hin) as (?&?&?&?). repeat split; try done.
  by apply is_Some_insert.
Qed.

Lemma shaped_last_error name v s :
  shaped s -> shaped (with_last_error (<[name := v]> (last_error s)) s).
Proof.
  intros [Hn Hk Ht]. constructor; [done| |done].
  intros n Hin. destruct (Hk n Hin) as (?&?&?&?). repeat split; try done.
  by apply is_Some_insert.
Qed.

Lemma shaped_enabled name v s :
  shaped s -> shaped (with_enabled (<[name := v]> (provider_enabled s)) s).
Proof.
  intros [Hn Hk Ht]. constructor; [done| |done].
  intros n Hin. destruct (Hk n Hin) as (?&?&?&?). repeat split; try done.
  by apply is_Some_insert.
Qed.

Lemma shaped_last_failure_time name v s :
  shaped s -> shaped (with_last_failure_time (<[name := v]> (last_failure_time s)) s).
Proof.
  intros [Hn Hk Ht]. constructor; [done| |done].
  intros n Hin. destruct (Hk n Hin) as (?&?&?&?). repeat split; try done.
  by apply is_Some_insert.
Qed.

Lemma shaped_rate_limits m s : shaped s -> shaped (with_rate_limits m s).
Proof. intros [Hn Hk Ht]. by constructor. Qed.

Ltac shape :=
  repeat first
    [ assumption
    | apply shaped_failures | apply shaped_last_error | apply shaped_enabled
    | apply shaped_last_failure_time | apply shaped_rate_limits
    | apply shaped_alter; [intros ?; reflexivity|]
    | case_match ].

Lemma shaped_record_success name now s :
  shaped s -> shaped (_record_success name now s).
Proof. intros H. unfold _record_success. shape. Qed.

Lemma shaped_record_failure name msg now s :
  shaped s -> shaped (_record_failure name msg now s).
Proof. intros H. unfold _record_failure. shape. Qed.

Lemma shaped_handle_rate_limit name msg ext now s :
  shaped s -> shaped (_handle_rate_limit name msg ext now s).
Proof.
  intros H. unfold _handle_rate_limit. shape.
  by apply shaped_record_failure; shape.
Qed.

Lemma shaped_reset_step s name : shaped s -> shaped (reset_step s name).
Proof. intros H. unfold reset_step. shape. Qed.

Lemma shaped_reset_one s name : shaped s -> shaped (reset_one s name).
Proof. intros H. unfold reset_one. shape. Qed.

(** *** The re-admission loops do nothing in a shaped state

    Both loops test the time stored in the provider's own entry, and no
    operation stores one there. *)

Lemma cooled_down_shaped now s name p :
  shaped s -> get_provider s name = Some p -> cooled_down now p = false.
Proof.
  intros [_ _ Ht] Hp. unfold cooled_down. by rewrite (Ht _ _ Hp).
Qed.

Lemma reenable_best_shaped now s name : shaped s -> reenable_best now s name = s.
Proof.
  intros H. unfold reenable_best.
  destruct (get_provider s name) as [p|] eqn:Hp; [|done].
  rewrite (cooled_down_shaped now s name p H Hp).
  by rewrite !andb_false_r.
Qed.

Lemma reenable_next_shaped now s name : shaped s -> reenable_next now s name = s.
Proof.
  intros H. unfold reenable_next.
  destruct (get_provider s name) as [p|] eqn:Hp; [|done].
  rewrite (cooled_down_shaped now s name p H Hp).
  by rewrite !andb_false_r.
Qed.

Lemma fold_left_id {A B} (f : A -> B -> A) (P : A -> Prop) (l : list B) (a : A) :
  (forall a b, P a -> f a b = a) -> P a -> fold_left f l a = a.
Proof.
  intros Hf Ha. induction l as [|b l IH]; simpl; [done|]. by rewrite Hf.
Qed.

Lemma reconcile_best_shaped now s : shaped s -> reconcile_best now s = s.
Proof.
  intros H. unfold reconcile_best.
  apply (fold_left_id _ shaped); [|done]. intros. by apply reenable_best_shaped.
Qed.

Lemma reconcile_next_shaped now s : shaped s -> reconcile_next now s = s.
Proof.
  intros H. unfold reconcile_next.
  apply (fold_left_id _ shaped); [|done]. intros. by apply reenable_next_shaped.
Qed.

Lemma fold_left_keeps {A B} (f : A -> B -> A) (P : A -> Prop) (l : list B) (a : A) :
  (forall a b, P a -> P (f a b)) -> P a -> P (fold_left f l a).
Proof.
  intros Hf. revert a. induction l as [|b l IH]; simpl; auto.
Qed.

(** ** Counters stay sound *)

Lemma sound_alter name f s : sound s -> sound (alter_provider name f s).
Proof.
  intros [H0 Hth Hd]. constructor; [done|done|].
  intros n. rewrite provider_names_alter. apply Hd.
Qed.

Lemma sound_record_success name now s : sound s -> sound (_record_success name now s).
Proof.
  intros [H0 Hth Hd]. unfold _record_success. case_match; [|by constructor].
  constructor; intros n; norm; unfold max_failures in *;
    by_name n name; eauto; try lia.
  all: try (intros; apply Hd; done).
Qed.

Lemma sound_record_failure name msg now s : sound s -> sound (_record_failure name msg now s).
Proof.
  intros [H0 Hth Hd]. unfold _record_failure. 
  destruct (is_provider s name); simpl negb; cbv iota; [|by constructor].
  constructor; intros n; case_match; norm; unfold max_failures in *;
    by_name n name; eauto; try (specialize (H0 name); norm; lia).
Qed.

Lemma record_failure_names name msg now s :
  provider_names (_record_failure name msg now s) = provider_names s.
Proof. unfold _record_failure. repeat case_match; by norm. Qed.

Lemma record_failure_positive name msg now s :
  sound s -> In name (provider_names s) ->
  0 < failures_of (_record_failure name msg now s) name.
Proof.
  intros [H0 _ _] Hp. apply is_provider_names in Hp.
  unfold _record_failure. rewrite Hp. simpl negb. cbv iota.
  specialize (H0 name). case_match; norm; simplify_map_eq; lia.
Qed.

Lemma sound_handle_rate_limit name msg ext now s :
  sound s -> sound (_handle_rate_limit name msg ext now s).
Proof.
  intros H. unfold _handle_rate_limit.
  set (s1 := with_rate_limits _ s).
  assert (H1 : sound s1) by (destruct H; by constructor).
  pose proof (record_failure_positive name msg now s1 H1) as Hf.
  rewrite <- (record_failure_names name msg now s1) in Hf.
  apply (sound_record_failure name msg now) in H1.
  revert H1 Hf. generalize (_record_failure name msg now s1).
  intros s2 [H0 Hth Hd] Hf.
  constructor; intros n; norm; by_name n name; eauto.
Qed.

Lemma sound_reset_step s name : sound s -> sound (reset_step s name).
Proof.
  intros [H0 Hth Hd]. unfold reset_step. repeat case_match; try by constructor.
  constructor; intros n; norm; unfold max_failures in *; by_name n name; eauto; lia.
Qed.

Lemma sound_reset_one s name : sound s -> sound (reset_one s name).
Proof.
  intros [H0 Hth Hd]. unfold reset_one. repeat case_match; try by constructor.
  all: constructor; intros n; norm; unfold max_failures in *; by_name n name; eauto; lia.
Qed.

(** ** Every operation keeps a good state good *)

Lemma good_record_success name now s : good s -> good (_record_success name now s).
Proof. intros [? ?]. split; [by apply shaped_record_success|by apply sound_record_success]. Qed.

Lemma good_record_failure name msg now s : good s -> good (_record_failure name msg now s).
Proof. intros [? ?]. split; [by apply shaped_record_failure|by apply sound_record_failure]. Qed.

Lemma good_handle_rate_limit name msg ext now s :
  good s -> good (_handle_rate_limit name msg ext now s).
Proof.
  intros [? ?]. split; [by apply shaped_handle_rate_limit|by apply sound_handle_rate_limit].
Qed.

Lemma good_alter name f s :
  (forall p, prov_last_failure_time (f p) = prov_last_failure_time p) ->
  good s -> good (alter_provider name f s).
Proof. intros Hf [? ?]. split; [by apply shaped_alter|by apply sound_alter]. Qed.

Lemma good_reset_step s name : good s -> good (reset_step s name).
Proof. intros [? ?]. split; [by apply shaped_reset_step|by apply sound_reset_step]. Qed.

Lemma good_reset_one s name : good s -> good (reset_one s name).
Proof. intros [? ?]. split; [by apply shaped_reset_one|by apply sound_reset_one]. Qed.

Lemma good_global_reset s : good s -> good (global_reset s).
Proof. apply fold_left_keeps. intros. by apply good_reset_step. Qed.

Lemma good_reset_provider_errors o s : good s -> good (reset_provider_errors o s).
Proof.
  intros H. unfold reset_provider_errors.
  assert (Hall : good (fold_left reset_one (provider_names s) s)).
  { apply (fold_left_keeps _ good); [|done]. intros. by apply good_reset_one. }
  destruct o as [name|]; [|done].
  destruct (nonempty name); [by apply good_reset_one|done].
Qed.

Lemma get_best_provider_state now s : snd (get_best_provider now s) = recover now s.
Proof.
  unfold get_best_provider, recover.
  by destruct (List.filter (healthy (reconcile_best now s))
                 (provider_names (reconcile_best now s))).
Qed.

Lemma good_recover now s : good s -> good (recover now s).
Proof.
  intros H. unfold recover. rewrite reconcile_best_shaped by apply H.
  case_match; [by apply good_global_reset|done].
Qed.

Lemma get_next_state exclude now s :
  snd (_get_next_available_provider exclude now s) = reconcile_next now s.
Proof. done. Qed.

Lemma good_get_next exclude now s :
  good s -> good (snd (_get_next_available_provider exclude now s)).
Proof. intros H. rewrite get_next_state, reconcile_next_shaped; [done|apply H]. Qed.

Lemma good_record_provider_failure name e now s :
  good s -> good (record_provider_failure name e now s).
Proof.
  intros H. unfold record_provider_failure.
  repeat case_match; first [by apply good_handle_rate_limit|by apply good_record_failure].
Qed.

Lemma good_handle_provider_failure o e now s :
  good s -> good (snd (_handle_provider_failure o e now s)).
Proof.
  intros H. unfold _handle_provider_failure.
  repeat case_match; apply good_get_next; try done.
  by apply good_record_provider_failure.
Qed.

Lemma good_record_and_raise name ext e now s :
  good s -> good (record_and_raise name ext e now s).
Proof.
  intros H. unfold record_and_raise.
  case_match; [by apply good_handle_rate_limit|by apply good_record_failure].
Qed.

Lemma good_generate_with_gemini B prompt mt now s :
  good s -> good (snd (fst (_generate_with_gemini B prompt mt now s))).
Proof.
  intros H. unfold _generate_with_gemini.
  repeat case_match; simpl; try done;
    first [by apply good_handle_rate_limit|by apply good_record_failure].
Qed.

Lemma good_generate_with_groq B prompt mt now s :
  good s -> good (snd (fst (_generate_with_groq B prompt mt now s))).
Proof.
  intros H. unfold _generate_with_groq.
  repeat case_match; simpl; try done; by apply good_record_and_raise.
Qed.

Lemma good_generate_with_openai B prompt mt now s :
  good s -> good (snd (fst (_generate_with_openai B prompt mt now s))).
Proof.
  intros H. unfold _generate_with_openai.
  repeat case_match; simpl; try done; by apply good_record_and_raise.
Qed.

Lemma good_huggingface_models B prompt mt now rounds s sent :
  good s -> good (snd (fst (huggingface_models B prompt mt now rounds s sent))).
Proof.
  revert s sent. induction rounds as [|k IH]; intros s sent H; simpl; [done|].
  repeat case_match; simpl; try done; try apply IH;
    repeat first [ by apply good_alter
                 | apply good_handle_rate_limit | apply good_record_failure ].
Qed.

Lemma good_generate_with_huggingface B prompt mt now s :
  good s -> good (snd (fst (_generate_with_huggingface B prompt mt now s))).
Proof.
  intros H. unfold _generate_with_huggingface.
  repeat case_match; simpl; try done. by apply good_huggingface_models.
Qed.

Lemma good_call_provider B name prompt mt now s :
  good s -> good (snd (fst (_call_provider B name prompt mt now s))).
Proof.
  intros H. unfold _call_provider.
  repeat case_match; simpl; try done;
    first [ by apply good_generate_with_gemini | by apply good_generate_with_groq
          | by apply good_generate_with_openai | by apply good_generate_with_huggingface ].
Qed.

Lemma final_hand_over name e now s invoked sent :
  final (hand_over name e now s invoked sent) =
  snd (_handle_provider_failure (Some name) e now s).
Proof. unfold hand_over. by destruct (_handle_provider_failure _ _ _ _). Qed.

Lemma good_try_providers {T} B method prompt (kw : kwargs T) now s :
  good s -> good (final (_try_providers B method prompt kw now s)).
Proof.
  intros H. unfold _try_providers.
  pose proof (good_recover now s H) as H1.
  rewrite <- get_best_provider_state in H1.
  destruct (get_best_provider now s) as [best s1]. simpl in H1.
  destruct best as [name|]; [|done].
  destruct (nonempty name); simpl negb; cbv iota; [|done].
  destruct (String.eqb method "generate").
  - pose proof (good_call_provider B name prompt (default 1000 (kw_max_tokens kw)) now s1 H1) as H2.
    destruct (_call_provider B name prompt (default 1000 (kw_max_tokens kw)) now s1)
      as [[out s2] sent]. simpl in H2.
    destruct out as [[r|]|msg]; [destruct (nonempty r)|..];
      rewrite ?final_hand_over; cbn [final];
      repeat first [ done | apply good_record_success | apply good_record_failure
                   | apply good_handle_provider_failure ].
  - rewrite final_hand_over. by apply good_handle_provider_failure.
Qed.

Lemma default_dict_of_names {V} (v : V) names n :
  default v (dict_of_names v names !! n) = v.
Proof.
  unfold dict_of_names. induction names as [|m r IH]; simpl; [done|].
  destruct (decide (m = n)) as [->|]; by simplify_map_eq.
Qed.

Lemma is_Some_dict_of_names {V} (v : V) names n :
  In n names -> is_Some (dict_of_names v names !! n).
Proof.
  unfold dict_of_names. induction names as [|m r IH]; simpl; [done|].
  intros Hin. apply lookup_insert_is_Some.
  destruct (decide (m = n)); [by left|right]. split; [done|]. apply IH. by destruct Hin.
Qed.

Lemma good_init hg ho hq g q o h : good (init_state hg ho hq g q o h).
Proof.
  split; constructor.
  - reflexivity.
  - intros n Hin. change (provider_names (init_state hg ho hq g q o h))
      with (map fst (init_providers g q o h)) in Hin.
    unfold init_state; cbn [provider_failures last_error provider_enabled last_failure_time].
    repeat split; apply is_Some_dict_of_names; exact Hin.
  - intros n p. unfold get_provider, init_state, init_providers, providers, lookup_provider.
    repeat (destruct (String.eqb _ n); [intros [= <-]; reflexivity|]).
    discriminate.
  - intros n. unfold failures_of, init_state; cbn [provider_failures].
    rewrite default_dict_of_names. lia.
  - intros n. unfold failures_of, init_state; cbn [provider_failures].
    rewrite default_dict_of_names. unfold max_failures. lia.
  - intros n _. unfold enabled_of, init_state; cbn [provider_enabled].
    rewrite default_dict_of_names. discriminate.
Qed.

Lemma good_step op now s : good s -> good (step op now s).
Proof.
  intros H. destruct op; simpl.
  - by apply good_record_success.
  - by apply good_record_failure.
  - by apply good_handle_rate_limit.
  - rewrite get_best_provider_state. by apply good_recover.
  - by apply (good_get_next exclude).
  - by apply good_handle_provider_failure.
  - by apply good_reset_provider_errors.
  - by apply good_call_provider.
  - by apply good_try_providers.
Qed.

Lemma reachable_good s : reachable s -> good s.
Proof. induction 1; [apply good_init|by apply good_step]. Qed.

(** ** Sorting *)

Lemma key_le_refl a : key_le a a = true.
Proof. unfold key_le. destruct a as [x y]; simpl. lia. Qed.

Lemma key_le_total a b : key_le a b = false -> key_le b a = true.
Proof. unfold key_le. destruct a, b; simpl. lia. Qed.

Lemma key_le_trans a b c : key_le a b = true -> key_le b c = true -> key_le a c = true.
Proof. unfold key_le. destruct a, b, c; simpl. lia. Qed.

Lemma insert_by_In key x l y : In y (insert_by key x l) <-> y = x \/ In y l.
Proof.
  induction l as [|z r IH]; simpl.
  - split; intros [?|?]; auto.
  - destruct (key_le (key x) (key z)); simpl; [|rewrite IH]; intuition auto.
Qed.

Lemma sort_by_In key l y : In y (sort_by key l) <-> In y l.
Proof.
  induction l as [|x r IH]; simpl; [done|].
  rewrite insert_by_In, IH. intuition auto.
Qed.

Lemma head_insert_by key x l :
  head (insert_by key x l) =
  match head l with
  | Some h => if key_le (key x) (key h) then Some x else Some h
  | None => Some x
  end.
Proof. destruct l as [|z r]; simpl; [done|]. by destruct (key_le (key x) (key z)). Qed.

Lemma head_sort_by_least key l h :
  head (sort_by key l) = Some h ->
  In h l /\ forall y, In y l -> key_le (key h) (key y) = true.
Proof.
  revert h. induction l as [|x r IH]; intros h; simpl; [done|].
  rewrite head_insert_by.
  destruct (head (sort_by key r)) as [h'|] eqn:Hh.
  - destruct (IH h' eq_refl) as [Hin Hmin].
    destruct (key_le (key x) (key h')) eqn:Hle; intros [= <-].
    + split; [by left|]. intros y [<-|Hy]; [apply key_le_refl|].
      eapply key_le_trans; eauto.
    + split; [by right|]. intros y [<-|Hy]; [by apply key_le_total|auto].
  - intros [= <-]. split; [by left|].
    intros y [<-|Hy]; [apply key_le_refl|].
    apply (sort_by_In key) in Hy. by destruct (sort_by key r).
Qed.

Lemma head_sort_by_None key l : head (sort_by key l) = None <-> l = [].
Proof.
  split; [|by intros ->].
  destruct l as [|x r]; [done|]. simpl. rewrite head_insert_by. by repeat case_match.
Qed.

(** ** The reset loop, provider by provider *)

Lemma reset_step_providers s m : providers (reset_step s m) = providers s.
Proof. unfold reset_step. by repeat case_match. Qed.

Lemma global_reset_providers s : providers (global_reset s) = providers s.
Proof.
  unfold global_reset. generalize (provider_names s). intros l. revert s.
  induction l as [|m r IH]; intros s; simpl; [done|].
  by rewrite IH, reset_step_providers.
Qed.

Lemma reset_step_available s m n : available_of (reset_step s m) n = available_of s n.
Proof. unfold available_of, get_provider. by rewrite reset_step_providers. Qed.

Lemma reset_step_failures_le s m n :
  failures_of s n <= 0 -> failures_of (reset_step s m) n <= 0.
Proof. unfold reset_step. repeat case_match; norm; by_name n m; lia. Qed.

Lemma reset_step_failures_self s m :
  available_of s m = true -> failures_of (reset_step s m) m <= 0.
Proof.
  intros Ha. unfold reset_step. rewrite Ha. simpl negb. cbv iota.
  case_match; norm; simplify_map_eq; lia.
Qed.

Lemma reset_loop_failures l s n :
  In n l -> available_of s n = true -> failures_of (fold_left reset_step l s) n <= 0.
Proof.
  revert s. induction l as [|m r IH]; intros s; simpl; [done|].
  intros [->|Hin] Ha.
  - apply (fold_left_keeps _ (fun s => failures_of s n <= 0)).
    + intros. by apply reset_step_failures_le.
    + by apply reset_step_failures_self.
  - apply IH; [done|]. by rewrite reset_step_available.
Qed.

Lemma reset_step_enabled_true s m n :
  enabled_of s n = true -> enabled_of (reset_step s m) n = true.
Proof. unfold reset_step. repeat case_match; norm; by_name n m; done. Qed.

Lemma reset_step_other s m n :
  n <> m ->
  failures_of (reset_step s m) n = failures_of s n /\
  enabled_of (reset_step s m) n = enabled_of s n.
Proof. intros Hne. unfold reset_step. repeat case_match; norm; by simplify_map_eq. Qed.

Lemma reset_step_enabled_self s m :
  available_of s m = true ->
  (enabled_of s m = false -> 0 < failures_of s m) ->
  enabled_of (reset_step s m) m = true.
Proof.
  intros Ha Hd. unfold reset_step. rewrite Ha. simpl negb. cbv iota.
  destruct (0 <? failures_of s m) eqn:Hf; [norm; by simplify_map_eq|].
  destruct (enabled_of s m); [done|]. specialize (Hd eq_refl). lia.
Qed.

Lemma reset_loop_enabled l s n :
  In n l -> available_of s n = true ->
  (enabled_of s n = false -> 0 < failures_of s n) ->
  enabled_of (fold_left reset_step l s) n = true.
Proof.
  revert s. induction l as [|m r IH]; intros s; simpl; [done|].
  intros Hin Ha Hd. destruct (decide (n = m)) as [->|Hne].
  - apply (fold_left_keeps _ (fun s => enabled_of s m = true)).
    + intros. by apply reset_step_enabled_true.
    + by apply reset_step_enabled_self.
  - destruct Hin as [->|Hin]; [done|].
    destruct (reset_step_other s m n Hne) as [Hf He].
    apply IH; [done|by rewrite reset_step_available|by rewrite Hf, He].
Qed.

(** ** Selection: filter, sort, first *)

Lemma excluded_In exclude n : excluded exclude n = true <-> In n exclude.
Proof.
  unfold excluded. rewrite existsb_exists. split.
  - intros (x & Hx & He). apply String.eqb_eq in He. by subst.
  - intros H. exists n. split; [done|apply String.eqb_refl].
Qed.

Lemma eligible_spec exclude s n :
  eligible exclude s n = true <->
  ~ In n exclude /\ available_of s n = true /\ enabled_of s n = true /\
  failures_of s n < max_failures.
Proof.
  unfold eligible, healthy. rewrite <- excluded_In.
  rewrite !andb_true_iff, negb_true_iff, Z.ltb_lt.
  destruct (excluded exclude n); intuition congruence.
Qed.

Lemma select_spec exclude s :
  (forall n, select exclude s = Some n -> first_eligible exclude s n) /\
  (select exclude s = None <->
   forall m, In m (provider_names s) -> eligible exclude s m = false).
Proof.
  unfold select. split.
  - intros n Hn. apply head_sort_by_least in Hn as [Hin Hmin].
    apply filter_In in Hin as [Hin He].
    apply eligible_spec in He as (?&?&?&?).
    repeat split; try done.
    intros m Hm Hem. apply Hmin. apply filter_In. by split.
  - rewrite head_sort_by_None. split.
    + intros Hnil m Hm. destruct (eligible exclude s m) eqn:He; [|done].
      assert (In m (List.filter (eligible exclude s) (provider_names s)))
        by (apply filter_In; by split).
      rewrite Hnil in H. done.
    + intros Hall. destruct (List.filter _ _) as [|x r] eqn:Hf; [done|].
      assert (Hx : In x (List.filter (eligible exclude s) (provider_names s)))
        by (rewrite Hf; by left).
      apply filter_In in Hx as [Hx He]. by rewrite (Hall x Hx) in He.
Qed.

Lemma get_next_select exclude now s :
  _get_next_available_provider exclude now s =
  (select exclude (reconcile_next now s), reconcile_next now s).
Proof. done. Qed.

Lemma eligible_nil s n : eligible [] s n = healthy s n.
Proof. done. Qed.

Lemma get_best_provider_select now s :
  get_best_provider now s = (select [] (recover now s), recover now s).
Proof.
  unfold get_best_provider, recover, select.
  set (s1 := reconcile_best now s).
  destruct (List.filter (healthy s1) (provider_names s1)) as [|x r] eqn:Hf.
  - f_equal. f_equal. f_equal. apply filter_ext_in. intros n Hn.
    rewrite eligible_nil. unfold healthy.
    destruct (available_of (global_reset s1) n) eqn:Ha; [|done].
    destruct (enabled_of (global_reset s1) n); [|done]. simpl.
    symmetry. apply Z.ltb_lt. unfold max_failures.
    unfold provider_names in Hn. rewrite global_reset_providers in Hn.
    unfold available_of, get_provider in Ha. rewrite global_reset_providers in Ha.
    pose proof (reset_loop_failures (provider_names s1) s1 n Hn Ha).
    unfold global_reset. lia.
  - rewrite <- Hf. f_equal.
Qed.

(** C4.  Both selection functions return the first name, in the order
    (priority, consecutive failures), among the providers that are
    available, enabled, below the failure threshold and not excluded, in
    the ledger they leave; they return [None] exactly when no provider is
    eligible there.  So the name returned is never that of a disabled
    provider or of one at the threshold.  ([get_best_provider] excludes
    nothing; the ledger it leaves is the one after its recovery steps.) *)
Theorem selection_returns_first_eligible exclude now s :
  ledger_keys s ->
  let next := _get_next_available_provider exclude now s in
  let best := get_best_provider now s in
  (fst next = select exclude (snd next) /\
   (forall n, fst next = Some n -> first_eligible exclude (snd next) n) /\
   (fst next = None <->
    forall m, In m (provider_names (snd next)) -> eligible exclude (snd next) m = false)) /\
  (fst best = select [] (snd best) /\
   (forall n, fst best = Some n -> first_eligible [] (snd best) n) /\
   (fst best = None <->
    forall m, In m (provider_names (snd best)) -> eligible [] (snd best) m = false)).
Proof.
  intros _ next best. subst next best.
  rewrite get_next_select, get_best_provider_select. cbn [fst snd].
  split; (split; [done|apply select_spec]).
Qed.

(** ** Global exhaustion *)

Lemma recover_providers now s : shaped s -> providers (recover now s) = providers s.
Proof.
  intros H. unfold recover. rewrite reconcile_best_shaped by done.
  case_match; [apply global_reset_providers|done].
Qed.

Lemma filter_nil_iff {A} (f : A -> bool) l :
  List.filter f l = [] <-> forall x, In x l -> f x = false.
Proof.
  split.
  - intros Hnil x Hx. destruct (f x) eqn:Hf; [|done].
    assert (In x (List.filter f l)) by (apply filter_In; by split).
    by rewrite Hnil in H.
  - intros Hall. destruct (List.filter f l) as [|x r] eqn:Hf; [done|].
    assert (Hx : In x (List.filter f l)) by (rewrite Hf; by left).
    apply filter_In in Hx as [Hx He]. by rewrite (Hall x Hx) in He.
Qed.

Lemma global_reset_reopens s n :
  good s -> In n (provider_names s) -> available_of s n = true ->
  failures_of (global_reset s) n = 0 /\
  enabled_of (global_reset s) n = true /\
  available_of (global_reset s) n = true.
Proof.
  intros Hg Hin Ha.
  pose proof (good_global_reset s Hg) as [_ [H0 _ _]].
  destruct Hg as [_ [_ _ Hd]].
  pose proof (reset_loop_failures (provider_names s) s n Hin Ha) as Hle.
  specialize (H0 n). unfold global_reset in *.
  repeat split.
  - lia.
  - apply reset_loop_enabled; auto.
  - fold (global_reset s). unfold available_of, get_provider in *.
    by rewrite global_reset_providers.
Qed.

(** C7.  In every state the manager can reach: when no provider is healthy
    after the re-admission loop, [get_best_provider] leaves every available
    provider with consecutive failures 0 and enabled; it never changes an
    [error_count]; and whenever some provider is available it returns a
    provider instead of [None]. *)
Theorem exhaustion_resets_and_selects now s :
  reachable s ->
  let s1 := reconcile_best now s in
  let best := get_best_provider now s in
  ((forall n, In n (provider_names s1) -> healthy s1 n = false) ->
   forall n, In n (provider_names s1) -> available_of s1 n = true ->
     failures_of (snd best) n = 0 /\
     enabled_of (snd best) n = true /\
     available_of (snd best) n = true) /\
  (forall n, error_count_of (snd best) n = error_count_of s n) /\
  ((exists n, In n (provider_names s) /\ available_of s n = true) ->
   exists n, fst best = Some n).
Proof.
  intros Hr s1 best. apply reachable_good in Hr as Hg.
  assert (Hs : shaped s) by apply Hg.
  subst s1 best. rewrite get_best_provider_select. cbn [fst snd].
  rewrite reconcile_best_shaped by done.
  split; [|split].
  - intros Hall n Hin Ha. unfold recover. rewrite reconcile_best_shaped by done.
    apply filter_nil_iff in Hall. rewrite Hall. by apply global_reset_reopens.
  - intros n. unfold error_count_of, get_provider. by rewrite recover_providers.
  - intros (n & Hin & Ha).
    destruct (select [] (recover now s)) as [m|] eqn:Hsel; [by exists m|].
    exfalso. pose proof (proj1 (proj2 (select_spec [] (recover now s))) Hsel) as Hnone.
    clear Hsel. rename Hnone into Hsel.
    unfold recover in Hsel. rewrite reconcile_best_shaped in Hsel by done.
    destruct (List.filter (healthy s) (provider_names s)) as [|x r] eqn:Hf.
    + destruct (global_reset_reopens s n Hg Hin Ha) as (H1 & H2 & H3).
      assert (Hin' : In n (provider_names (global_reset s)))
        by (unfold provider_names; by rewrite global_reset_providers).
      specialize (Hsel n Hin'). unfold eligible, healthy in Hsel.
      rewrite H1, H2, H3 in Hsel. done.
    + assert (Hx : In x (List.filter (healthy s) (provider_names s)))
        by (rewrite Hf; by left).
      apply filter_In in Hx as [Hx He]. specialize (Hsel x Hx).
      rewrite eligible_nil in Hsel. congruence.
Qed.

(** ** A disabled provider stays disabled *)













(** ** Counting failures *)

Lemma record_failure_count name e now s :
  In name (provider_names s) ->
  failures_of (_record_failure name e now s) name = failures_of s name + 1.
Proof.
  intros Hp. apply is_provider_names in Hp.
  unfold _record_failure. rewrite Hp. simpl negb. cbv iota.
  case_match; norm; by simplify_map_eq.
Qed.




(** ** Recording a success *)

(** C8.  For a registered provider and any prior state, [_record_success]
    sets its consecutive failures to 0, enables it, clears its last error
    and last failure time and sets its [last_success] to [now]; it leaves
    its [error_count] and availability, the rate-limit records and every
    other provider's entries unchanged. *)
Theorem record_success_frame s name now :
  In name (provider_names s) ->
  let s' := _record_success name now s in
  provider_failures s' !! name = Some 0 /\
  provider_enabled s' !! name = Some true /\
  last_error s' !! name = Some None /\
  last_failure_time s' !! name = Some None /\
  (exists p,
     get_provider s name = Some p /\
     get_provider s' name =
       Some (set_last_success (Some now) (set_consecutive_failures 0 p))) /\
  error_count_of s' name = error_count_of s name /\
  available_of s' name = available_of s name /\
  rate_limits s' = rate_limits s /\
  provider_names s' = provider_names s /\
  forall other, other <> name ->
    get_provider s' other = get_provider s other /\
    provider_failures s' !! other = provider_failures s !! other /\
    provider_enabled s' !! other = provider_enabled s !! other /\
    last_error s' !! other = last_error s !! other /\
    last_failure_time s' !! other = last_failure_time s !! other.
Proof.
  intros Hin s'. subst s'. apply is_provider_names in Hin as Hp.
  unfold _record_success. rewrite Hp.
  unfold is_provider in Hp. destruct (get_provider s name) as [p|] eqn:Hget; [|done].
  repeat split.
  - norm. by simplify_map_eq.
  - norm. by simplify_map_eq.
  - norm. by simplify_map_eq.
  - norm. by simplify_map_eq.
  - exists p. split; [done|]. norm. rewrite String.eqb_refl, Hget. done.
  - norm. rewrite String.eqb_refl, Hget. done.
  - norm. rewrite String.eqb_refl, Hget. done.
  - norm. done.
  - norm. destruct (String.eqb_spec other name); [done|]. done.
  - norm. by simplify_map_eq.
  - norm. by simplify_map_eq.
  - norm. by simplify_map_eq.
  - norm. by simplify_map_eq.
Qed.

Lemma record_success_frame_witness :
  provider_failures (_record_success "groq" 50 second_request.(final)) !! "groq" = Some 0 /\
  provider_failures (_record_success "groq" 50 second_request.(final)) !! "gemini" =
    provider_failures second_request.(final) !! "gemini".
Proof.
  assert (Hin : In "groq" (provider_names (final second_request))).
  { vm_compute. right. left. reflexivity. }
  pose proof (record_success_frame (final second_request) "groq" 50 Hin) as H.
  cbv zeta in H.
  destruct H as (H1 & _ & _ & _ & _ & _ & _ & _ & _ & H2).
  split; [exact H1|].
  assert (Hne : "gemini" <> "groq") by discriminate.
  exact (proj1 (proj2 (H2 "gemini" Hne))).
Defined.

(** ** Token budgets *)

Lemma huggingface_models_requests B prompt mt now rounds s sent c :
  In c (snd (huggingface_models B prompt mt now rounds s sent)) ->
  In c sent \/
  c = {| to_provider := "huggingface"; with_prompt := prompt;
         with_tokens := Z.min mt 1024 |}.
Proof.
  revert s sent. induction rounds as [|k IH]; intros s sent; simpl; [by left|].
  repeat case_match; simpl; try (by left);
    try (intros Hc; apply IH in Hc; revert Hc);
    rewrite in_app_iff; simpl; intuition auto.
Qed.

Lemma call_provider_requests B name prompt mt now s c :
  In c (snd (_call_provider B name prompt mt now s)) ->
  c = {| to_provider := name; with_prompt := prompt;
         with_tokens := Z.min mt (token_cap name) |}.
Proof.
  unfold _call_provider, token_cap.
  destruct (String.eqb_spec name "gemini") as [->|_].
  { unfold _generate_with_gemini. repeat case_match; simpl; intuition auto. }
  destruct (String.eqb_spec name "groq") as [->|_].
  { unfold _generate_with_groq. repeat case_match; simpl; intuition auto. }
  destruct (String.eqb_spec name "openai") as [->|_].
  { unfold _generate_with_openai. repeat case_match; simpl; intuition auto. }
  destruct (String.eqb_spec name "huggingface") as [->|_]; [|done].
  unfold _generate_with_huggingface. repeat case_match; simpl; try done.
  intros Hc. apply huggingface_models_requests in Hc as [[]|Hc]. done.
Qed.

Lemma try_providers_requests {T} B method prompt (kw : kwargs T) now s c :
  In c (requests (_try_providers B method prompt kw now s)) ->
  exists name,
    invoked (_try_providers B method prompt kw now s) = [name] /\
    c = {| to_provider := name; with_prompt := prompt;
           with_tokens := Z.min (default 1000 (kw_max_tokens kw)) (token_cap name) |}.
Proof.
  unfold _try_providers.
  destruct (get_best_provider now s) as [[name|] s1]; [|done].
  destruct (nonempty name); simpl negb; cbv iota; [|done].
  destruct (String.eqb method "generate").
  - pose proof (call_provider_requests B name prompt
                  (default 1000 (kw_max_tokens kw)) now s1 c) as Hc.
    destruct (_call_provider B name prompt (default 1000 (kw_max_tokens kw)) now s1)
      as [[out s2] sent]. cbn [snd] in Hc.
    unfold hand_over.
    destruct out as [[r|]|msg]; [destruct (nonempty r)|..];
      repeat (destruct (_handle_provider_failure _ _ _ _)); cbn [requests invoked];
      intros Hin; exists name; split; auto.
  - unfold hand_over. by destruct (_handle_provider_failure _ _ _ _).
Qed.

(** C9.  Whatever [max_tokens] is asked for, every request a provider
    function sends carries [min max_tokens cap], with the provider's own cap
    (8192 gemini and groq, 4096 openai, 1024 huggingface), hence at most
    that cap; the same holds of the requests of a whole dispatch. *)
Theorem token_budget_is_clamped B prompt max_tokens now s :
  (forall name c,
     In c (snd (_call_provider B name prompt max_tokens now s)) ->
     to_provider c = name /\
     with_tokens c = Z.min max_tokens (token_cap name) /\
     with_tokens c <= token_cap name) /\
  (forall T (temperature : T) c,
     In c (requests (generate_analysis B prompt max_tokens temperature now s)) ->
     with_tokens c = Z.min max_tokens (token_cap (to_provider c)) /\
     with_tokens c <= token_cap (to_provider c) /\
     invoked (generate_analysis B prompt max_tokens temperature now s) = [to_provider c]).
Proof.
  split.
  - intros name c Hc. apply call_provider_requests in Hc as ->. simpl.
    repeat split. lia.
  - intros T temperature c Hc. unfold generate_analysis in *.
    apply try_providers_requests in Hc as (name & Hi & ->). simpl.
    repeat split; [lia|done].
Qed.

Lemma token_budget_witness :
  let c := {| to_provider := "gemini"; with_prompt := "prompt"; with_tokens := 8192 |} in
  In c (requests (generate_analysis (gemini_raises "boom") "prompt" 100000 tt 1000 fresh)) /\
  with_tokens c = Z.min 100000 (token_cap (to_provider c)) /\
  with_tokens c <= token_cap (to_provider c) /\
  invoked (generate_analysis (gemini_raises "boom") "prompt" 100000 tt 1000 fresh) = ["gemini"].
Proof.
  cbv zeta.
  assert (Hin : In {| to_provider := "gemini"; with_prompt := "prompt"; with_tokens := 8192 |}
                  (requests (generate_analysis (gemini_raises "boom") "prompt" 100000 tt 1000 fresh))).
  { vm_compute. left. reflexivity. }
  split; [exact Hin|].
  exact (proj2 (token_budget_is_clamped (gemini_raises "boom") "prompt" 100000 1000 fresh)
           unit tt _ Hin).
Defined.

(** ** The temperature argument *)

(** C10.  Two calls of [generate_analysis] that differ only in the
    temperature argument (of any type) give the same run: same value
    returned, same state left, same providers invoked, same requests. *)
Theorem temperature_is_ignored :
  forall (T1 T2 : Type) (t1 : T1) (t2 : T2) B prompt max_tokens now s,
    generate_analysis B prompt max_tokens t1 now s =
    generate_analysis B prompt max_tokens t2 now s.
Proof.
  intros. unfold generate_analysis, _try_providers. cbn [kw_max_tokens].
  reflexivity.
Qed.

(** ** Rate limits *)






(** ** Cooldown *)

Lemma reconciliation_is_idle now s :
  reachable s -> reconcile_best now s = s /\ reconcile_next now s = s.
Proof.
  intros Hr. apply reachable_good in Hr as [Hs _].
  split; [by apply reconcile_best_shaped|by apply reconcile_next_shaped].
Qed.

Lemma reachable_gemini_limited : reachable gemini_limited.
Proof.
  unfold gemini_limited, fresh. apply reachable_step. apply reachable_init.
Qed.

(** C3.  gemini is rate-limited at time 1000: it is disabled, its failure
    time is 1000 and its rate-limit reset is at 1600.  Whatever the clock
    reads afterwards, both selection functions leave the ledger as it is
    and select groq: gemini is never re-admitted, because the cooldown test
    reads the time from the provider's own entry, where none is stored. *)
Theorem cooldown_never_readmits :
  available_of gemini_limited "gemini" = true /\
  enabled_of gemini_limited "gemini" = false /\
  failure_time_of gemini_limited "gemini" = Some 1000 /\
  rate_limits gemini_limited !! "gemini" = Some {| reset_time := 1600; attempts := 1 |} /\
  forall now,
    _get_next_available_provider [] now gemini_limited = (Some "groq", gemini_limited) /\
    get_best_provider now gemini_limited = (Some "groq", gemini_limited).
Proof.
  split; [vm_compute; reflexivity|].
  split; [vm_compute; reflexivity|].
  split; [vm_compute; reflexivity|].
  split; [vm_compute; reflexivity|].
  intros now. split.
  - rewrite get_next_select.
    rewrite (proj2 (reconciliation_is_idle now _ reachable_gemini_limited)).
    f_equal; vm_compute; reflexivity.
  - rewrite get_best_provider_select. unfold recover.
    rewrite (proj1 (reconciliation_is_idle now _ reachable_gemini_limited)).
    vm_compute. reflexivity.
Qed.

(** ** Dispatch *)

Lemma try_providers_invokes_once {T} B method prompt (kw : kwargs T) now s :
  (length (invoked (_try_providers B method prompt kw now s)) <= 1)%nat.
Proof.
  unfold _try_providers, hand_over.
  repeat first [ case_match | destruct (_handle_provider_failure _ _ _ _) ]; simpl; lia.
Qed.

(** C1.  A dispatch hands at most one provider to [_call_provider].  With
    gemini raising and groq available and enabled, the run invokes gemini
    only and returns the name "groq" instead of a generation result. *)
Theorem dispatch_stops_at_first_failure :
  (forall T B prompt max_tokens (temperature : T) now s,
     (length (invoked (generate_analysis B prompt max_tokens temperature now s)) <= 1)%nat) /\
  available_of fresh "groq" = true /\
  enabled_of fresh "groq" = true /\
  returned first_request = NextProvider "groq" /\
  invoked first_request = ["gemini"] /\
  requests first_request =
    [{| to_provider := "gemini"; with_prompt := "prompt"; with_tokens := 1000 |}].
Proof.
  split; [intros; apply try_providers_invokes_once|].
  vm_compute. auto 10.
Qed.

(** C2.  On a fresh ledger with gemini, groq and openai up, one failed
    request on gemini leaves its consecutive failures at 2, and a second
    one at 4 with gemini disabled: the next selection returns groq. *)
Theorem failed_requests_count_twice :
  invoked first_request = ["gemini"] /\
  failures_of (final first_request) "gemini" = 2 /\
  invoked second_request = ["gemini"] /\
  failures_of (final second_request) "gemini" = 4 /\
  enabled_of (final second_request) "gemini" = false /\
  fst (get_best_provider 1002 (final second_request)) = Some "groq".
Proof. vm_compute. auto 10. Qed.

Lemma two_recorded_failures_keep_gemini hg ho hq q o h e1 e2 t1 t2 now :
  let s := _record_failure "gemini" e2 t2
             (_record_failure "gemini" e1 t1 (init_state hg ho hq true q o h)) in
  failures_of s "gemini" = 2 /\
  enabled_of s "gemini" = true /\
  fst (get_best_provider now s) = Some "gemini".
Proof. destruct q, o, h; vm_compute; auto. Qed.

(** ** The theorems at work on the example runs *)

Lemma selection_witness :
  ledger_keys fresh /\
  first_eligible ["gemini"] (snd (_get_next_available_provider ["gemini"] 7 fresh)) "groq" /\
  first_eligible [] (snd (get_best_provider 7 fresh)) "gemini".
Proof.
  assert (Hk : ledger_keys fresh) by apply (good_init true true true true true true false).
  split; [exact Hk|].
  destruct (selection_returns_first_eligible ["gemini"] 7 fresh Hk)
    as [(_ & Hnext & _) (_ & Hbest & _)].
  split.
  - apply Hnext. vm_compute. reflexivity.
  - apply Hbest. vm_compute. reflexivity.
Defined.

Lemma exhaustion_witness :
  reachable alone_limited /\
  enabled_of alone_limited "gemini" = false /\
  (failures_of (snd (get_best_provider 1001 alone_limited)) "gemini" = 0 /\
   enabled_of (snd (get_best_provider 1001 alone_limited)) "gemini" = true /\
   available_of (snd (get_best_provider 1001 alone_limited)) "gemini" = true) /\
  exists n, fst (get_best_provider 1001 alone_limited) = Some n.
Proof.
  assert (Hr : reachable alone_limited).
  { unfold alone_limited, alone. apply reachable_step. apply reachable_init. }
  split; [exact Hr|].
  split; [vm_compute; reflexivity|].
  destruct (exhaustion_resets_and_selects 1001 alone_limited Hr) as (Hreset & _ & Hsome).
  split.
  - apply Hreset.
    + intros n Hin. vm_compute in Hin.
      destruct Hin as [<-|[<-|[<-|[<-|[]]]]]; vm_compute; reflexivity.
    + vm_compute. left. reflexivity.
    + vm_compute. reflexivity.
  - apply Hsome. exists "gemini". split; [vm_compute; left|vm_compute]; reflexivity.
Defined.


(** * Further properties *)

(** ** Administrative reset *)

Lemma reset_one_unknown s name : get_provider s name = None -> reset_one s name = s.
Proof. intros H. unfold reset_one. by rewrite H. Qed.

Lemma reset_one_flags s name : same_flags s (reset_one s name).
Proof. unfold reset_one, same_flags. repeat case_match; by norm. Qed.

Lemma reset_one_rate_limits s name : rate_limits (reset_one s name) = rate_limits s.
Proof. unfold reset_one. repeat case_match; by norm. Qed.

Lemma reset_one_other s name other :
  other <> name -> untouched s (reset_one s name) other.
Proof.
  intros Hne. unfold reset_one, untouched.
  destruct (get_provider s name) as [p|] eqn:Hp; [|done].
  assert (String.eqb other name = false) as Hb by (by apply String.eqb_neq).
  case_match; norm; rewrite ?Hb; by simplify_map_eq.
Qed.

Lemma reset_one_self s name p :
  get_provider s name = Some p ->
  cleared (reset_one s name) name /\
  exists p', get_provider (reset_one s name) name = Some p' /\ reset_of s name p p'.
Proof.
  intros Hp. unfold reset_one, cleared, reset_of. rewrite Hp. cbv zeta.
  match goal with |- context [can_come_back ?S name p] =>
    change (can_come_back S name p) with (can_come_back s name p) end.
  destruct (can_come_back s name p) eqn:Hc.
  - split; [norm; by simplify_map_eq|].
    eexists. split; [norm; rewrite !String.eqb_refl; norm; by rewrite Hp|].
    simpl. by rewrite orb_true_r.
  - split; [norm; by simplify_map_eq|].
    eexists. split; [norm; rewrite !String.eqb_refl; norm; by rewrite Hp|].
    simpl. by rewrite orb_false_r.
Qed.

Lemma can_come_back_same s s' name p p' :
  same_flags s s' -> client p' = client p ->
  can_come_back s' name p' = can_come_back s name p.
Proof. intros (Hg & Ho & Hq) Hc. unfold can_come_back. by rewrite Hg, Ho, Hq, Hc. Qed.

Lemma same_flags_trans s1 s2 s3 :
  same_flags s1 s2 -> same_flags s2 s3 -> same_flags s1 s3.
Proof. unfold same_flags. intros (?&?&?) (?&?&?). repeat split; congruence. Qed.

Lemma reset_done_keeps s p name s' m :
  reset_done s p name s' -> reset_done s p name (reset_one s' m).
Proof.
  intros (Hcl & Hfl & p' & Hp' & Hr).
  pose proof (reset_one_flags s' m) as Hfl'.
  destruct (decide (m = name)) as [->|Hne].
  - destruct (reset_one_self s' name p' Hp') as (Hcl' & p'' & Hp'' & Hr').
    split; [done|]. split; [by eapply same_flags_trans|].
    exists p''. split; [done|].
    destruct Hr as (He & Hc & Ha & Hk & Hpr & Hl & Ht).
    destruct Hr' as (He' & Hc' & Ha' & Hk' & Hpr' & Hl' & Ht').
    repeat split; try congruence.
    rewrite Ha', Ha, (can_come_back_same s s' name p p' Hfl Hk).
    by destruct (available p), (can_come_back s name p).
  - destruct (reset_one_other s' m name) as (Hg & Hf & He & Hle & Hlt & _); [done|].
    destruct Hcl as (?&?&?&?).
    split; [unfold cleared; repeat split; congruence|].
    split; [by eapply same_flags_trans|].
    exists p'. split; [congruence|done].
Qed.

Lemma reset_loop_reaches l s p name s' :
  In name l -> same_flags s s' -> get_provider s' name = Some p ->
  (forall p', client p' = client p -> reset_of s' name p p' -> reset_of s name p p') ->
  reset_done s p name (fold_left reset_one l s').
Proof.
  revert s'. induction l as [|m r IH]; intros s' Hin Hfl Hp Hre; simpl; [done|].
  destruct (decide (m = name)) as [->|Hne].
  - apply (fold_left_keeps _ (reset_done s p name)).
    + intros. by apply reset_done_keeps.
    + destruct (reset_one_self s' name p Hp) as (Hcl & p' & Hp' & Hr).
      split; [done|]. split; [eapply same_flags_trans; [done|apply reset_one_flags]|].
      exists p'. split; [done|]. apply Hre; [apply Hr|done].
  - destruct Hin as [->|Hin]; [done|].
    destruct (reset_one_other s' m name) as (Hg & _); [done|].
    apply IH; try done.
    + eapply same_flags_trans; [done|apply reset_one_flags].
    + congruence.
    + intros p' Hk (He & Hc & Ha & Hk' & Hpr & Hl & Ht).
      apply Hre; [done|]. repeat split; try done.
      rewrite Ha. f_equal.
      apply can_come_back_same; [apply reset_one_flags|done].
Qed.

Lemma reset_loop_rate_limits l s :
  rate_limits (fold_left reset_one l s) = rate_limits s.
Proof.
  revert s. induction l as [|m r IH]; intros s; simpl; [done|].
  by rewrite IH, reset_one_rate_limits.
Qed.

(** X1.  [reset_provider_errors] called with no name (or with the empty
    string, which is false as a condition) resets every registered
    provider: consecutive failures 0, enabled, last error and last failure
    time cleared, [error_count] and ['consecutive_failures'] 0, and
    ['available'] set when the provider has a client or its library is
    installed (never cleared); the rate-limit records are left as they are. *)
Theorem reset_of_all_providers (provider_name : option string) s name p :
  provider_name = None \/ provider_name = Some "" ->
  get_provider s name = Some p ->
  let s' := reset_provider_errors provider_name s in
  failures_of s' name = 0 /\
  enabled_of s' name = true /\
  error_of s' name = None /\
  failure_time_of s' name = None /\
  (exists p', get_provider s' name = Some p' /\ reset_of s name p p') /\
  rate_limits s' = rate_limits s.
Proof.
  intros Ho Hp s'.
  assert (Hs' : s' = fold_left reset_one (provider_names s) s)
    by (by destruct Ho as [->| ->]).
  rewrite Hs'. clear Hs' s'.
  assert (Hin : In name (provider_names s)).
  { apply is_provider_names. unfold is_provider. by rewrite Hp. }
  destruct (reset_loop_reaches (provider_names s) s p name s Hin) as ((H1 & H2 & H3 & H4) & _ & Hex);
    [done|done|auto|].
  unfold failures_of, enabled_of, error_of, failure_time_of.
  rewrite H1, H2, H3, H4. repeat split; try done.
  apply reset_loop_rate_limits.
Qed.

Lemma reset_of_all_providers_witness :
  failures_of (reset_provider_errors None (final second_request)) "gemini" = 0 /\
  enabled_of (reset_provider_errors None (final second_request)) "gemini" = true.
Proof.
  assert (Hp : exists p, get_provider (final second_request) "gemini" = Some p)
    by (vm_compute; eauto).
  destruct Hp as [p Hp].
  destruct (reset_of_all_providers None (final second_request) "gemini" p
              (or_introl eq_refl) Hp) as (H1 & H2 & _).
  split; [exact H1|exact H2].
Defined.

(** X2.  [reset_provider_errors] with a non-empty name: an unregistered
    name changes nothing; a registered one is reset and no other provider's
    entry or ledger key changes, nor any rate-limit record, nor the list of
    providers. *)
Theorem reset_of_one_provider s name :
  nonempty name = true ->
  let s' := reset_provider_errors (Some name) s in
  (get_provider s name = None -> s' = s) /\
  (forall p, get_provider s name = Some p ->
     cleared s' name /\
     exists p', get_provider s' name = Some p' /\ reset_of s name p p') /\
  (forall other, other <> name -> untouched s s' other) /\
  rate_limits s' = rate_limits s /\
  provider_names s' = provider_names s.
Proof.
  intros Hne s'. subst s'. unfold reset_provider_errors. rewrite Hne.
  split; [apply reset_one_unknown|].
  split; [apply reset_one_self|].
  split; [intros; by apply reset_one_other|].
  split; [apply reset_one_rate_limits|].
  unfold reset_one. repeat case_match; by norm.
Qed.

Lemma reset_of_one_provider_witness :
  enabled_of (final second_request) "gemini" = false /\
  cleared (reset_provider_errors (Some "gemini") (final second_request)) "gemini" /\
  untouched (final second_request)
    (reset_provider_errors (Some "gemini") (final second_request)) "groq".
Proof.
  split; [vm_compute; reflexivity|].
  destruct (reset_of_one_provider (final second_request) "gemini" eq_refl)
    as (_ & Hself & Hother & _).
  assert (Hp : exists p, get_provider (final second_request) "gemini" = Some p)
    by (vm_compute; eauto).
  destruct Hp as [p Hp].
  split; [exact (proj1 (Hself p Hp))|].
  apply Hother. discriminate.
Defined.

(** ** Providers without a client, names without a provider *)

(** X3.  A registered provider without a client makes [_call_provider]
    raise before anything is sent, with the state unchanged (nothing is
    recorded by the provider function); a name that is none of the four
    makes it return [None], also with nothing sent and the state unchanged. *)
Theorem call_without_client_sends_nothing B name prompt max_tokens now s :
  (forall p, In name known_names ->
     get_provider s name = Some p -> client p = false ->
     exists msg, _call_provider B name prompt max_tokens now s = (Throws msg, s, [])) /\
  (~ In name known_names ->
     _call_provider B name prompt max_tokens now s = (Returns None, s, [])).
Proof.
  unfold known_names, _call_provider. split.
  - intros p Hin Hp Hc. simpl in Hin.
    destruct Hin as [<-|[<-|[<-|[<-|[]]]]]; simpl;
      unfold _generate_with_gemini, _generate_with_groq, _generate_with_openai,
        _generate_with_huggingface; rewrite Hp, Hc; simpl; eauto.
  - intros Hn. simpl in Hn.
    destruct (String.eqb_spec name "gemini"); [exfalso; apply Hn; subst; auto 10|].
    destruct (String.eqb_spec name "groq"); [exfalso; apply Hn; subst; auto 10|].
    destruct (String.eqb_spec name "openai"); [exfalso; apply Hn; subst; auto 10|].
    destruct (String.eqb_spec name "huggingface"); [exfalso; apply Hn; subst; auto 10|done].
Qed.

Lemma call_without_client_witness :
  exists msg,
    _call_provider all_answer "openai" "prompt" 10 5 nobody = (Throws msg, nobody, []).
Proof.
  assert (Hp : exists p, get_provider nobody "openai" = Some p /\ client p = false)
    by (vm_compute; eauto).
  destruct Hp as (p & Hp & Hc).
  apply (proj1 (call_without_client_sends_nothing all_answer "openai" "prompt" 10 5 nobody)
           p); [vm_compute; auto 10|exact Hp|exact Hc].
Defined.

(** ** What a successful dispatch leaves *)

Lemma huggingface_models_returns B prompt mt now rounds s sent t :
  fst (fst (huggingface_models B prompt mt now rounds s sent)) = Returns (Some t) ->
  nonempty t = true /\ snd (huggingface_models B prompt mt now rounds s sent) <> [].
Proof.
  revert s sent. induction rounds as [|k IH]; intros s sent; simpl; [done|].
  repeat case_match; simpl; try done; try apply IH.
  intros [= <-]. split; [done|]. by destruct sent.
Qed.

Lemma huggingface_models_never_none B prompt mt now rounds s sent :
  fst (fst (huggingface_models B prompt mt now rounds s sent)) <> Returns None.
Proof.
  revert s sent. induction rounds as [|k IH]; intros s sent; simpl; [done|].
  repeat case_match; simpl; try done; apply IH.
Qed.

Lemma call_provider_returns B name prompt mt now s o :
  fst (fst (_call_provider B name prompt mt now s)) = Returns o ->
  match o with
  | Some t => nonempty t = true /\ In name known_names /\
              snd (_call_provider B name prompt mt now s) <> []
  | None => ~ In name known_names
  end.
Proof.
  unfold _call_provider, known_names.
  destruct (String.eqb_spec name "gemini") as [->|Hg].
  { unfold _generate_with_gemini. repeat case_match; simpl; try done;
      intros Heq; inversion Heq; subst; simpl; auto 10. }
  destruct (String.eqb_spec name "groq") as [->|Hq].
  { unfold _generate_with_groq. repeat case_match; simpl; try done;
      intros Heq; inversion Heq; subst; simpl; auto 10. }
  destruct (String.eqb_spec name "openai") as [->|Ho].
  { unfold _generate_with_openai. repeat case_match; simpl; try done;
      intros Heq; inversion Heq; subst; simpl; auto 10. }
  destruct (String.eqb_spec name "huggingface") as [->|Hh].
  { unfold _generate_with_huggingface.
    destruct (get_provider s "huggingface") as [config|]; [|done].
    destruct (client config); simpl; [|done].
    intros Heq. destruct o as [t|].
    - apply huggingface_models_returns in Heq as [? ?]. auto 10.
    - by apply huggingface_models_never_none in Heq. }
  simpl. intros [= <-] [?|[?|[?|[?|[]]]]]; congruence.
Qed.

(** ** Every operation is a sequence of elementary writes *)

Section Writes.
Variable R : state -> state -> Prop.
Hypothesis HR : respected R.

Ltac writes :=
  repeat
    lazymatch goal with
    | |- R ?s ?s => apply (across_nothing R HR)
    | |- R ?s (alter_provider ?n (set_available true) ?t) =>
        apply (across_both R HR s t); [|apply (across_available R HR)]
    | |- R ?s (alter_provider ?n (set_consecutive_failures 0) ?t) =>
        apply (across_both R HR s t); [|apply (across_consecutive R HR)]
    | |- R ?s (alter_provider ?n (set_last_success _) ?t) =>
        apply (across_both R HR s t); [|apply (across_last_success R HR)]
    | |- R ?s (alter_provider ?n (set_current_model_index _) ?t) =>
        apply (across_both R HR s t); [|apply (across_model_index R HR)]
    | |- R ?s (alter_provider ?n (fun p => set_error_count (error_count p + 1) p) ?t) =>
        apply (across_both R HR s t); [|apply (across_error_count R HR)]
    | |- R ?s (with_failures _ ?t) =>
        apply (across_both R HR s t); [|apply (across_failures R HR)]
    | |- R ?s (with_last_error _ ?t) =>
        apply (across_both R HR s t); [|apply (across_last_error R HR)]
    | |- R ?s (with_enabled _ ?t) =>
        apply (across_both R HR s t); [|apply (across_enabled R HR)]
    | |- R ?s (with_last_failure_time _ ?t) =>
        apply (across_both R HR s t); [|apply (across_failure_time R HR)]
    | |- R ?s (with_rate_limits _ ?t) =>
        apply (across_both R HR s t); [|apply (across_rate_limit R HR)]
    | |- R ?s (if _ then _ else _) => case_match
    | |- R ?s (match _ with _ => _ end) => case_match
    end.

Lemma fold_left_across {B} (f : state -> B -> state) l s :
  (forall s b, R s (f s b)) -> R s (fold_left f l s).
Proof.
  intros Hf. revert s. induction l as [|b l IH]; intros s; simpl.
  - apply (across_nothing R HR).
  - eapply (across_both R HR); [apply Hf|apply IH].
Qed.

Lemma across_record_success n now s : R s (_record_success n now s).
Proof. unfold _record_success. cbv zeta. writes. Qed.

Lemma across_record_failure n e now s : R s (_record_failure n e now s).
Proof. unfold _record_failure. cbv zeta. writes. Qed.

Lemma across_handle_rate_limit n e ext now s : R s (_handle_rate_limit n e ext now s).
Proof.
  unfold _handle_rate_limit. cbv zeta. writes.
  eapply (across_both R HR); [|apply across_record_failure]. writes.
Qed.

Lemma across_reconcile_best now s : R s (reconcile_best now s).
Proof.
  apply fold_left_across. intros s' n. unfold reenable_best, clear_ledger.
  cbv zeta. writes.
Qed.

Lemma across_reconcile_next now s : R s (reconcile_next now s).
Proof.
  apply fold_left_across. intros s' n. unfold reenable_next, clear_ledger.
  cbv zeta. writes.
Qed.

Lemma across_global_reset s : R s (global_reset s).
Proof.
  apply fold_left_across. intros s' n. unfold reset_step. cbv zeta. writes.
Qed.

Lemma across_recover now s : R s (recover now s).
Proof.
  unfold recover. cbv zeta. case_match.
  - eapply (across_both R HR); [apply across_reconcile_best|apply across_global_reset].
  - apply across_reconcile_best.
Qed.

Lemma across_record_provider_failure n e now s : R s (record_provider_failure n e now s).
Proof.
  unfold record_provider_failure.
  repeat case_match; first [apply across_handle_rate_limit|apply across_record_failure].
Qed.

Lemma across_handle_provider_failure o e now s :
  R s (snd (_handle_provider_failure o e now s)).
Proof.
  unfold _handle_provider_failure.
  repeat case_match; rewrite get_next_state; try apply across_reconcile_next.
  eapply (across_both R HR);
    [apply across_record_provider_failure|apply across_reconcile_next].
Qed.

Lemma across_record_and_raise n ext e now s : R s (record_and_raise n ext e now s).
Proof.
  unfold record_and_raise.
  case_match; [apply across_handle_rate_limit|apply across_record_failure].
Qed.

Lemma across_huggingface_models B prompt mt now rounds s sent :
  R s (snd (fst (huggingface_models B prompt mt now rounds s sent))).
Proof.
  revert s sent. induction rounds as [|k IH]; intros s sent; simpl;
    [apply (across_nothing R HR)|].
  repeat case_match; simpl;
    first
      [ apply (across_nothing R HR)
      | apply (across_model_index R HR)
      | eapply (across_both R HR); [|apply IH];
        first
          [ apply (across_model_index R HR)
          | eapply (across_both R HR);
            [ apply (across_model_index R HR)
            | first [ apply across_handle_rate_limit
                    | apply across_record_failure ] ] ] ].
Qed.

Lemma across_call_provider B n prompt mt now s :
  R s (snd (fst (_call_provider B n prompt mt now s))).
Proof.
  unfold _call_provider, _generate_with_gemini, _generate_with_groq,
    _generate_with_openai, _generate_with_huggingface.
  repeat case_match; simpl;
    first [ apply (across_nothing R HR) | apply across_handle_rate_limit
          | apply across_record_failure | apply across_record_and_raise
          | apply across_huggingface_models ].
Qed.

Lemma across_try_providers {T} B method prompt (kw : kwargs T) now s :
  R s (final (_try_providers B method prompt kw now s)).
Proof.
  unfold _try_providers.
  pose proof (across_recover now s) as H1.
  rewrite <- get_best_provider_state in H1.
  destruct (get_best_provider now s) as [best s1]. simpl in H1.
  destruct best as [name|]; [|done].
  destruct (nonempty name); simpl negb; cbv iota; [|done].
  eapply (across_both R HR); [apply H1|].
  destruct (String.eqb method "generate").
  - pose proof (across_call_provider B name prompt
                  (default 1000 (kw_max_tokens kw)) now s1) as H2.
    destruct (_call_provider B name prompt (default 1000 (kw_max_tokens kw)) now s1)
      as [[out s2] sent]. simpl in H2.
    eapply (across_both R HR); [apply H2|].
    destruct out as [[r|]|msg]; [destruct (nonempty r)|..];
      rewrite ?final_hand_over; cbn [final];
      first
        [ apply across_record_success
        | apply across_handle_provider_failure
        | eapply (across_both R HR);
          [apply across_record_failure|apply across_handle_provider_failure] ].
  - rewrite final_hand_over. apply across_handle_provider_failure.
Qed.

Lemma across_step op now s : is_reset op = false -> R s (step op now s).
Proof.
  intros Hop. destruct op; cbn [step]; try done.
  - apply across_record_success.
  - apply across_record_failure.
  - apply across_handle_rate_limit.
  - rewrite get_best_provider_state. apply across_recover.
  - rewrite get_next_state. apply across_reconcile_next.
  - apply across_handle_provider_failure.
  - apply across_call_provider.
  - apply across_try_providers.
Qed.

(** With the zeroing of [error_count] too, the reset is covered. *)
Hypothesis across_zero : forall n s, R s (alter_provider n (set_error_count 0) s).

Lemma across_reset_one s n : R s (reset_one s n).
Proof.
  unfold reset_one. cbv zeta. case_match; [|apply (across_nothing R HR)].
  case_match; writes; apply across_zero.
Qed.

Lemma across_reset_provider_errors o s : R s (reset_provider_errors o s).
Proof.
  unfold reset_provider_errors.
  destruct o as [n|]; [destruct (nonempty n)|];
    first [apply across_reset_one|apply fold_left_across; apply across_reset_one].
Qed.

Lemma across_any_step op now s : R s (step op now s).
Proof.
  destruct (is_reset op) eqn:Hop; [|by apply across_step].
  destruct op; try done. apply across_reset_provider_errors.
Qed.
End Writes.

(** ** The registry never changes *)

Lemma same_registry_alter n f s :
  (forall p, registry_entry (f p) = registry_entry p) ->
  same_registry s (alter_provider n f s).
Proof.
  intros Hf. split; [apply provider_names_alter|]. split; [done|].
  intros m. rewrite get_provider_alter.
  destruct (String.eqb m n); [|done].
  destruct (get_provider s m); simpl; [by rewrite Hf|done].
Qed.

Lemma same_registry_respected : respected same_registry.
Proof.
  constructor; try (intros; by apply same_registry_alter); try by repeat split.
  intros s1 s2 s3 (Hn & Hf & He) (Hn' & Hf' & He').
  split; [congruence|]. split; [by eapply same_flags_trans|].
  intros n. by rewrite He', He.
Qed.

(** X12.  No operation, the administrative reset included, adds, removes
    or reorders a provider, changes a module flag, or changes a provider's
    client, priority, model label, model list or [max_errors]; none stores
    a ['last_failure_time'] in a provider's own entry. *)
Theorem registry_is_immutable op now s :
  provider_names (step op now s) = provider_names s /\
  same_flags s (step op now s) /\
  forall n p', get_provider (step op now s) n = Some p' ->
    exists p, get_provider s n = Some p /\
      client p' = client p /\ priority p' = priority p /\ model p' = model p /\
      models p' = models p /\ max_errors p' = max_errors p /\
      prov_last_failure_time p' = prov_last_failure_time p.
Proof.
  destruct (across_any_step same_registry same_registry_respected
              (fun n s => same_registry_alter n (set_error_count 0) s (fun p => eq_refl)) op now s)
    as (Hn & Hf & He).
  split; [done|]. split; [done|].
  intros n p' Hp'. specialize (He n). rewrite Hp' in He.
  destruct (get_provider s n) as [p|]; [|done].
  exists p. split; [done|]. simpl in He. unfold registry_entry in He.
  injection He as -> -> -> -> -> ->. done.
Qed.

(** ** The historical error count *)

Lemma errors_kept_alter n f s :
  (forall p, error_count p <= error_count (f p)) ->
  errors_kept s (alter_provider n f s).
Proof.
  intros Hf m. unfold error_count_of. rewrite get_provider_alter.
  destruct (String.eqb m n); [|done].
  destruct (get_provider s m); simpl; [apply Hf|done].
Qed.

Lemma errors_kept_respected : respected errors_kept.
Proof.
  constructor; try (intros; apply errors_kept_alter; intros; simpl; lia);
    try (intros; intros m; done).
  intros s1 s2 s3 H1 H2 m. specialize (H1 m). specialize (H2 m). lia.
Qed.

(** X6.  No operation other than [reset_provider_errors] ever lowers a
    provider's [error_count]: successes, cooldown re-admission and the
    global reset leave the historical count alone. *)
Theorem error_count_never_decreases op now s n :
  is_reset op = false ->
  error_count_of s n <= error_count_of (step op now s) n.
Proof.
  intros Hop. by apply (across_step errors_kept errors_kept_respected op now s Hop).
Qed.

Lemma error_count_witness :
  error_count_of fresh "gemini" <=
  error_count_of (step (GenerateAnalysis (gemini_raises "boom") "prompt" 1000) 1000 fresh)
    "gemini".
Proof.
  exact (error_count_never_decreases
           (GenerateAnalysis (gemini_raises "boom") "prompt" 1000) 1000 fresh "gemini"
           eq_refl).
Defined.

(** ** Rate-limit records *)

Lemma rate_limits_kept_same s s' : rate_limits s' = rate_limits s -> rate_limits_kept s s'.
Proof. intros H n r Hr. exists r. rewrite H. split; [done|lia]. Qed.

Lemma rate_limits_kept_respected : respected rate_limits_kept.
Proof.
  constructor; try (intros; by apply rate_limits_kept_same).
  - intros s1 s2 s3 H1 H2 n r Hr.
    destruct (H1 n r Hr) as (r' & Hr' & Hle).
    destruct (H2 n r' Hr') as (r'' & Hr'' & Hle').
    exists r''. split; [done|lia].
  - intros n t s m r Hr. sred.
    destruct (decide (m = n)) as [->|Hne].
    + eexists. rewrite lookup_insert_eq. split; [done|].
      simpl. unfold attempts_of. rewrite Hr. lia.
    + exists r. rewrite lookup_insert_ne by done. split; [done|lia].
Qed.

(** X13.  No operation, the administrative reset included, removes a
    rate-limit record or lowers its attempt counter. *)
Theorem rate_limit_records_are_never_dropped op now s n r :
  rate_limits s !! n = Some r ->
  exists r', rate_limits (step op now s) !! n = Some r' /\ attempts r <= attempts r'.
Proof.
  apply (across_any_step rate_limits_kept rate_limits_kept_respected).
  intros m s'. by apply rate_limits_kept_same.
Qed.

Lemma rate_limit_records_witness :
  exists r', rate_limits (step (ResetProviderErrors None) 2000 gemini_limited) !! "gemini"
             = Some r' /\ 1 <= attempts r'.
Proof.
  assert (H : rate_limits gemini_limited !! "gemini"
              = Some {| reset_time := 1600; attempts := 1 |})
    by (vm_compute; reflexivity).
  exact (rate_limit_records_are_never_dropped (ResetProviderErrors None) 2000
           gemini_limited "gemini" _ H).
Defined.

(** ** What a dispatch leaves *)

Lemma record_success_self n now s :
  is_provider s n = true ->
  failures_of (_record_success n now s) n = 0 /\
  enabled_of (_record_success n now s) n = true /\
  error_of (_record_success n now s) n = None /\
  failure_time_of (_record_success n now s) n = None /\
  exists q, get_provider (_record_success n now s) n = Some q /\
            last_success q = Some now /\ consecutive_failures q = 0.
Proof.
  intros Hp. unfold _record_success. rewrite Hp.
  unfold is_provider in Hp. destruct (get_provider s n) as [p|] eqn:Hget; [|done].
  repeat split; try (norm; by simplify_map_eq).
  eexists. split; [norm; rewrite String.eqb_refl, Hget; reflexivity|done].
Qed.

Lemma call_provider_names B n prompt mt now s :
  provider_names (snd (fst (_call_provider B n prompt mt now s))) = provider_names s.
Proof.
  by destruct (across_call_provider same_registry same_registry_respected
                 B n prompt mt now s) as [? _].
Qed.

Lemma select_in_names exclude s n : select exclude s = Some n -> In n (provider_names s).
Proof. intros H. by apply (proj1 (select_spec exclude s)) in H as [? _]. Qed.

Lemma hand_over_returned name e now s invoked sent r p :
  returned (hand_over name e now s invoked sent) <> Generated r p.
Proof.
  unfold hand_over. destruct (_handle_provider_failure _ _ _ _) as [[?|] ?]; done.
Qed.

(** X4.  When [generate_analysis] returns a response dict, the response
    is not empty, the provider named in it is the one [get_best_provider]
    selected and the only one invoked, at least one request was sent, and
    that provider ends enabled, with consecutive failures 0, no last error,
    no last failure time and [last_success] set to [now]. *)
Theorem successful_dispatch {T} B prompt max_tokens (temperature : T) now s r p :
  returned (generate_analysis B prompt max_tokens temperature now s) = Generated r p ->
  let run := generate_analysis B prompt max_tokens temperature now s in
  nonempty r = true /\
  In p known_names /\
  fst (get_best_provider now s) = Some p /\
  invoked run = [p] /\
  requests run <> [] /\
  failures_of (final run) p = 0 /\
  enabled_of (final run) p = true /\
  error_of (final run) p = None /\
  failure_time_of (final run) p = None /\
  exists q, get_provider (final run) p = Some q /\ last_success q = Some now.
Proof.
  unfold generate_analysis, _try_providers. cbn [kw_max_tokens default from_option id].
  rewrite get_best_provider_select. cbn [fst].
  destruct (select [] (recover now s)) as [name|] eqn:Hsel; [|done].
  apply select_in_names in Hsel as Hin.
  destruct (nonempty name); simpl negb; cbv iota; [|done].
  change (String.eqb "generate" "generate") with true. cbv iota.
  pose proof (call_provider_names B name prompt max_tokens now (recover now s)) as Hn.
  pose proof (call_provider_returns B name prompt max_tokens now (recover now s)) as Hret.
  destruct (_call_provider B name prompt max_tokens now (recover now s))
    as [[out s2] sent]. cbn [fst snd] in *.
  destruct out as [[t|]|msg]; [destruct (nonempty t) eqn:Ht|..];
    try (intros Hg; by apply hand_over_returned in Hg).
  cbn [returned]. intros Heq. injection Heq as <- <-. cbn [invoked requests final].
  destruct (Hret (Some t) eq_refl) as (_ & Hk & Hs).
  assert (Hp : is_provider s2 name = true)
    by (apply is_provider_names; by rewrite Hn).
  destruct (record_success_self name now s2 Hp) as (H1 & H2 & H3 & H4 & q & Hq & Hl & _).
  repeat split; try done. by exists q.
Qed.

Lemma successful_dispatch_witness :
  returned (generate_analysis all_answer "prompt" 10 tt 7 without_gemini)
    = Generated "from groq" "groq" /\
  enabled_of (final (generate_analysis all_answer "prompt" 10 tt 7 without_gemini)) "groq"
    = true.
Proof.
  assert (H : returned (generate_analysis all_answer "prompt" 10 tt 7 without_gemini)
              = Generated "from groq" "groq") by (vm_compute; reflexivity).
  split; [exact H|].
  exact (proj1 (proj2 (proj2 (proj2 (proj2 (proj2 (proj2
           (successful_dispatch all_answer "prompt" 10 tt 7 without_gemini _ _ H)))))))).
Defined.

(** ** Dispatch and availability *)

Lemma fold_left_fixed {A B} (f : A -> B -> A) l a :
  (forall b, In b l -> f a b = a) -> fold_left f l a = a.
Proof.
  induction l as [|b l IH]; intros Hf; simpl; [done|].
  rewrite (Hf b) by (by left). apply IH. intros. apply Hf. by right.
Qed.

Lemma recover_without_providers now s :
  shaped s ->
  (forall n, In n (provider_names s) -> available_of s n = false) ->
  recover now s = s /\ select [] s = None.
Proof.
  intros Hs Hall.
  assert (Hnone : forall n, In n (provider_names s) -> eligible [] s n = false).
  { intros n Hn. rewrite eligible_nil. unfold healthy. by rewrite (Hall n Hn). }
  split; [|by apply select_spec].
  unfold recover. rewrite reconcile_best_shaped by done.
  rewrite (proj2 (filter_nil_iff (healthy s) (provider_names s))) by exact Hnone.
  apply fold_left_fixed. intros n Hn. unfold reset_step. by rewrite (Hall n Hn).
Qed.

Lemma recover_selects now s :
  good s ->
  (exists n, In n (provider_names s) /\ available_of s n = true) ->
  exists n, select [] (recover now s) = Some n.
Proof.
  intros Hg (n & Hin & Ha).
  destruct (select [] (recover now s)) as [m|] eqn:Hsel; [by exists m|].
  exfalso. pose proof (proj1 (proj2 (select_spec [] (recover now s))) Hsel) as Hnone.
  unfold recover in Hnone. rewrite reconcile_best_shaped in Hnone by apply Hg.
  destruct (List.filter (healthy s) (provider_names s)) as [|x r] eqn:Hf.
  - destruct (global_reset_reopens s n Hg Hin Ha) as (H1 & H2 & H3).
    assert (Hin' : In n (provider_names (global_reset s)))
      by (unfold provider_names; by rewrite global_reset_providers).
    specialize (Hnone n Hin'). unfold eligible, healthy in Hnone.
    rewrite H1, H2, H3 in Hnone. done.
  - assert (Hx : In x (List.filter (healthy s) (provider_names s)))
      by (rewrite Hf; by left).
    apply filter_In in Hx as [Hx He]. specialize (Hnone x Hx).
    rewrite eligible_nil in Hnone. congruence.
Qed.

Lemma invoked_hand_over name e now s invoked0 sent :
  invoked (hand_over name e now s invoked0 sent) = invoked0.
Proof. unfold hand_over. by destruct (_handle_provider_failure _ _ _ _). Qed.

Lemma known_names_nonempty n : In n known_names -> nonempty n = true.
Proof. intros [<-|[<-|[<-|[<-|[]]]]]; reflexivity. Qed.

(** X5.  In a reachable state: if no provider is available,
    [generate_analysis] returns [None], invokes nobody, sends nothing and
    leaves the state exactly as it was; if some provider is available, it
    invokes exactly one provider, the one [get_best_provider] selects. *)
Theorem dispatch_needs_an_available_provider {T} B prompt max_tokens (temperature : T)
    now s :
  reachable s ->
  let run := generate_analysis B prompt max_tokens temperature now s in
  ((forall n, In n (provider_names s) -> available_of s n = false) ->
   run = {| returned := NoAnswer; final := s; invoked := []; requests := [] |}) /\
  ((exists n, In n (provider_names s) /\ available_of s n = true) ->
   exists n, invoked run = [n] /\ In n known_names /\
             fst (get_best_provider now s) = Some n).
Proof.
  intros Hr run. subst run. apply reachable_good in Hr as Hg.
  unfold generate_analysis, _try_providers.
  cbn [kw_max_tokens default from_option id].
  rewrite get_best_provider_select. cbn [fst].
  split.
  - intros Hall.
    destruct (recover_without_providers now s (proj1 Hg) Hall) as [-> ->]. done.
  - intros Hex. destruct (recover_selects now s Hg Hex) as [name Hsel].
    rewrite Hsel. apply select_in_names in Hsel as Hin.
    rewrite (shaped_names _ (proj1 (good_recover now s Hg))) in Hin.
    rewrite (known_names_nonempty name Hin). simpl negb. cbv iota.
    change (String.eqb "generate" "generate") with true. cbv iota.
    exists name.
    destruct (_call_provider B name prompt max_tokens now (recover now s))
      as [[out s2] sent].
    destruct out as [[t|]|msg]; [destruct (nonempty t)|..];
      rewrite ?invoked_hand_over; done.
Qed.

Lemma dispatch_without_provider_witness :
  reachable nobody /\
  generate_analysis all_answer "prompt" 10 tt 7 nobody =
    {| returned := NoAnswer; final := nobody; invoked := []; requests := [] |}.
Proof.
  assert (Hr : reachable nobody) by (unfold nobody; apply reachable_init).
  split; [exact Hr|].
  apply (proj1 (dispatch_needs_an_available_provider all_answer "prompt" 10 tt 7 nobody Hr)).
  intros n Hin. vm_compute in Hin.
  destruct Hin as [<-|[<-|[<-|[<-|[]]]]]; vm_compute; reflexivity.
Defined.

(** ** The HuggingFace model rotation *)

Lemma huggingface_models_length B prompt mt now rounds s sent :
  (length (snd (huggingface_models B prompt mt now rounds s sent))
   <= length sent + rounds)%nat.
Proof.
  revert s sent. induction rounds as [|k IH]; intros s sent; simpl; [lia|].
  repeat case_match; simpl; try lia;
    try (etransitivity; [apply IH|]); rewrite ?length_app; simpl; lia.
Qed.

Lemma record_failure_entry n e now s m :
  exists f, get_provider (_record_failure n e now s) m = f <$> get_provider s m /\
    forall p, models (f p) = models p /\
              current_model_index (f p) = current_model_index p /\
              client (f p) = client p.
Proof.
  unfold _record_failure.
  destruct (negb (is_provider s n)); [exists id; split; [by destruct (get_provider s m)|done]|].
  destruct (String.eqb m n) eqn:Hm.
  - exists (fun p => set_error_count (error_count p + 1) p).
    split; [|done]. case_match; norm; by rewrite Hm.
  - exists id. split; [|done].
    case_match; norm; rewrite Hm; by destruct (lookup_provider m (providers s)).
Qed.

Lemma handle_rate_limit_entry n e ext now s m :
  exists f, get_provider (_handle_rate_limit n e ext now s) m = f <$> get_provider s m /\
    forall p, models (f p) = models p /\
              current_model_index (f p) = current_model_index p /\
              client (f p) = client p.
Proof.
  unfold _handle_rate_limit. cbv zeta.
  match goal with |- context [_record_failure n e now ?S] =>
    destruct (record_failure_entry n e now S m) as (f & Hf & Hp) end.
  exists f. split; [|done]. exact Hf.
Qed.

Lemma rotation_ok_entry ms s s' f :
  get_provider s' "huggingface" = f <$> get_provider s "huggingface" ->
  (forall p, models (f p) = models p /\
             current_model_index (f p) = current_model_index p /\
             client (f p) = client p) ->
  rotation_ok ms s -> rotation_ok ms s'.
Proof.
  intros Hg Hf (c & Hc & Hm & Hi). rewrite Hc in Hg. simpl in Hg.
  exists (f c). destruct (Hf c) as (-> & -> & _). done.
Qed.

Lemma rotation_ok_record_failure ms n e now s :
  rotation_ok ms s -> rotation_ok ms (_record_failure n e now s).
Proof.
  destruct (record_failure_entry n e now s "huggingface") as (f & Hg & Hf).
  by apply (rotation_ok_entry ms s _ f).
Qed.

Lemma rotation_ok_handle_rate_limit ms n e ext now s :
  rotation_ok ms s -> rotation_ok ms (_handle_rate_limit n e ext now s).
Proof.
  destruct (handle_rate_limit_entry n e ext now s "huggingface") as (f & Hg & Hf).
  by apply (rotation_ok_entry ms s _ f).
Qed.

Lemma rotation_ok_advance ms s c :
  get_provider s "huggingface" = Some c -> models c = ms ->
  (current_model_index c < length ms)%nat ->
  rotation_ok ms
    (alter_provider "huggingface"
       (set_current_model_index ((current_model_index c + 1) mod length (models c))%nat) s).
Proof.
  intros Hc Hm Hi. eexists. rewrite get_provider_alter, Hc. simpl.
  split; [reflexivity|]. simpl. split; [done|].
  rewrite Hm. apply Nat.mod_upper_bound. lia.
Qed.

Lemma huggingface_models_safe B prompt mt now rounds ms s sent :
  rotation_ok ms s ->
  rotation_ok ms (snd (fst (huggingface_models B prompt mt now rounds s sent))) /\
  text_or_exhausted (fst (fst (huggingface_models B prompt mt now rounds s sent))).
Proof.
  revert s sent. induction rounds as [|k IH]; intros s sent Hok; simpl.
  { split; [done|by right]. }
  destruct Hok as (c & Hc & Hm & Hi). rewrite Hc.
  destruct (nth_error (models c) (current_model_index c)) as [label|] eqn:Hnth.
  2:{ apply nth_error_None in Hnth. rewrite Hm in Hnth. lia. }
  pose proof (rotation_ok_advance ms s c Hc Hm Hi) as Hadv.
  destruct (requests_post B label prompt (Z.min mt 1024)) as [code text body|msg].
  - destruct (code =? 200).
    + destruct (nonempty text) eqn:Ht; [|by apply IH].
      simpl. split; [done|]. left. by exists text.
    + destruct (code =? 503); [by apply IH|].
      apply IH. destruct (code =? 429);
        [by apply rotation_ok_handle_rate_limit|by apply rotation_ok_record_failure].
  - apply IH. by apply rotation_ok_record_failure.
Qed.

(** X7.  With a client and a model index inside the model list,
    [_generate_with_huggingface] sends at most one request per model, ends
    either with a non-empty text or with the exception "Todos os modelos
    HuggingFace falharam" (never an index error), and leaves the model list
    unchanged and the index inside it. *)
Theorem huggingface_rotation_is_safe B prompt max_tokens now s config :
  get_provider s "huggingface" = Some config ->
  client config = true ->
  (current_model_index config < length (models config))%nat ->
  let result := _generate_with_huggingface B prompt max_tokens now s in
  (length (snd result) <= length (models config))%nat /\
  text_or_exhausted (fst (fst result)) /\
  exists config',
    get_provider (snd (fst result)) "huggingface" = Some config' /\
    models config' = models config /\
    (current_model_index config' < length (models config))%nat.
Proof.
  intros Hc Hk Hi result. subst result.
  unfold _generate_with_huggingface. rewrite Hc, Hk. simpl negb. cbv iota.
  split; [apply (huggingface_models_length B prompt max_tokens now _ s [])|].
  destruct (huggingface_models_safe B prompt max_tokens now
              (length (models config)) (models config) s [])
    as [(c' & Hc' & Hm' & Hi') Hout]; [by exists config|].
  split; [done|]. by exists c'.
Qed.

Lemma huggingface_rotation_witness :
  (length (snd (_generate_with_huggingface all_loading "prompt" 10 7 only_huggingface))
   <= 2)%nat /\
  text_or_exhausted
    (fst (fst (_generate_with_huggingface all_loading "prompt" 10 7 only_huggingface))).
Proof.
  assert (Hp : exists c, get_provider only_huggingface "huggingface" = Some c /\
                         client c = true /\ models c = ["HuggingFaceH4/zephyr-7b-beta"; "google/flan-t5-base"] /\
                         current_model_index c = 0%nat)
    by (vm_compute; eauto 10).
  destruct Hp as (c & Hc & Hk & Hm & Hi).
  assert (Hlt : (current_model_index c < length (models c))%nat)
    by (rewrite Hi, Hm; simpl; lia).
  destruct (huggingface_rotation_is_safe all_loading "prompt" 10 7 only_huggingface c
              Hc Hk Hlt) as (H1 & H2 & _).
  rewrite Hm in H1. split; [exact H1|exact H2].
Defined.

Lemma provider_ext (c c0 : provider) :
  same_but_index c c0 -> current_model_index c = current_model_index c0 -> c = c0.
Proof.
  destruct c, c0. unfold same_but_index. simpl.
  intros (?&?&?&?&?&?&?&?&?&?) ?. by subst.
Qed.

Lemma huggingface_models_loading B prompt mt now rounds c0 s0 :
  all_models_loading B prompt mt (models c0) ->
  forall s sent c,
    get_provider s "huggingface" = Some c -> same_but_index c c0 ->
    (current_model_index c < length (models c0))%nat ->
    same_ledgers s0 s ->
    (forall m, m <> "huggingface" -> get_provider s m = get_provider s0 m) ->
    let result := huggingface_models B prompt mt now rounds s sent in
    fst (fst result) = Throws "Todos os modelos HuggingFace falharam" /\
    length (snd result) = (length sent + rounds)%nat /\
    same_ledgers s0 (snd (fst result)) /\
    (forall m, m <> "huggingface" -> get_provider (snd (fst result)) m = get_provider s0 m) /\
    exists c', get_provider (snd (fst result)) "huggingface" = Some c' /\
               same_but_index c' c0 /\
               current_model_index c' =
                 ((current_model_index c + rounds) mod length (models c0))%nat.
Proof.
  intros Hload. induction rounds as [|k IH]; intros s sent c Hc Hsame Hi Hled Hoth; simpl.
  { split; [done|]. split; [lia|]. split; [done|]. split; [done|].
    exists c. split; [done|]. split; [done|].
    rewrite Nat.add_0_r. symmetry. by apply Nat.mod_small. }
  rewrite Hc.
  assert (Hm : models c = models c0) by apply Hsame.
  destruct (nth_error (models c) (current_model_index c)) as [label|] eqn:Hnth.
  2:{ apply nth_error_None in Hnth. rewrite Hm in Hnth. lia. }
  apply nth_error_In in Hnth as Hin. rewrite Hm in Hin.
  destruct (Hload label Hin) as (g & b & ->).
  change (503 =? 200) with false. change (503 =? 503) with true. cbv iota.
  set (j := ((current_model_index c + 1) mod length (models c))%nat).
  destruct (IH (alter_provider "huggingface" (set_current_model_index j) s)
              (app sent [{| to_provider := "huggingface"; with_prompt := prompt;
                            with_tokens := Z.min mt 1024 |}])
              (set_current_model_index j c))
    as (H1 & H2 & H3 & H4 & c' & H5 & H6 & H7).
  - rewrite get_provider_alter, Hc. reflexivity.
  - exact Hsame.
  - simpl. subst j. rewrite Hm. apply Nat.mod_upper_bound. lia.
  - exact Hled.
  - intros m Hne. rewrite get_provider_alter.
    destruct (String.eqb_spec m "huggingface"); [done|by apply Hoth].
  - split; [done|]. split; [rewrite H2, length_app; simpl; lia|].
    split; [done|]. split; [done|].
    exists c'. split; [done|]. split; [done|].
    rewrite H7. simpl. subst j. rewrite Hm.
    rewrite Nat.Div0.add_mod_idemp_l. f_equal. lia.
Qed.

Lemma generate_with_huggingface_loading B prompt max_tokens now s config :
  get_provider s "huggingface" = Some config ->
  client config = true ->
  (current_model_index config < length (models config))%nat ->
  all_models_loading B prompt max_tokens (models config) ->
  let result := _generate_with_huggingface B prompt max_tokens now s in
  fst (fst result) = Throws "Todos os modelos HuggingFace falharam" /\
  length (snd result) = length (models config) /\
  same_ledgers s (snd (fst result)) /\
  forall m, get_provider (snd (fst result)) m = get_provider s m.
Proof.
  intros Hc Hk Hi Hload result. subst result.
  unfold _generate_with_huggingface. rewrite Hc, Hk. simpl negb. cbv iota.
  destruct (huggingface_models_loading B prompt max_tokens now
              (length (models config)) config s Hload s [] config)
    as (H1 & H2 & H3 & H4 & c' & H5 & H6 & H7); try done.
  split; [done|]. split; [done|]. split; [done|].
  intros m. destruct (decide (m = "huggingface")) as [->|Hne]; [|by apply H4].
  rewrite H5, Hc. f_equal. apply provider_ext; [done|].
  rewrite H7.
  replace (current_model_index config + length (models config))%nat
    with (current_model_index config + 1 * length (models config))%nat by lia.
  rewrite Nat.Div0.mod_add. by apply Nat.mod_small.
Qed.

(** X8.  When every HuggingFace model answers 503 (loading),
    [_generate_with_huggingface] sends one request per model, raises "Todos
    os modelos HuggingFace falharam", records nothing in any ledger, and
    leaves every provider entry as it was: the model index has gone once
    round the list. *)
Theorem huggingface_loading_costs_nothing B prompt max_tokens now s config :
  get_provider s "huggingface" = Some config ->
  client config = true ->
  (current_model_index config < length (models config))%nat ->
  all_models_loading B prompt max_tokens (models config) ->
  let result := _generate_with_huggingface B prompt max_tokens now s in
  fst (fst result) = Throws "Todos os modelos HuggingFace falharam" /\
  length (snd result) = length (models config) /\
  same_ledgers s (snd (fst result)) /\
  forall m, get_provider (snd (fst result)) m = get_provider s m.
Proof. apply generate_with_huggingface_loading. Qed.

Lemma huggingface_loading_witness :
  fst (fst (_generate_with_huggingface all_loading "prompt" 10 7 only_huggingface))
    = Throws "Todos os modelos HuggingFace falharam" /\
  failures_of (snd (fst (_generate_with_huggingface all_loading "prompt" 10 7
                           only_huggingface))) "huggingface" =
    failures_of only_huggingface "huggingface".
Proof.
  assert (Hp : exists c, get_provider only_huggingface "huggingface" = Some c /\
                         client c = true /\
                         models c = ["HuggingFaceH4/zephyr-7b-beta"; "google/flan-t5-base"] /\
                         current_model_index c = 0%nat)
    by (vm_compute; eauto 10).
  destruct Hp as (c & Hc & Hk & Hm & Hi).
  assert (Hlt : (current_model_index c < length (models c))%nat)
    by (rewrite Hi, Hm; simpl; lia).
  assert (Hload : all_models_loading all_loading "prompt" 10 (models c))
    by (intros label _; by exists "", "loading").
  destruct (huggingface_loading_costs_nothing all_loading "prompt" 10 7 only_huggingface c
              Hc Hk Hlt Hload) as (H1 & _ & (Hf & _) & _).
  split; [exact H1|]. unfold failures_of. by rewrite Hf.
Defined.

(** ** The rate-limit branch of [_generate_with_gemini] *)

(** X9.  When gemini's backend raises a rate-limit error,
    [_generate_with_gemini] files it under the model label (which is not a
    provider name), not under "gemini": the label gets a disabled flag, a
    failure time and a rate-limit record with a reset 600 seconds away,
    while the providers, the failure counts, the last errors and gemini's
    own enabled flag and failure time stay as they were. *)
Theorem gemini_files_rate_limit_under_model_label B prompt max_tokens now s p label msg :
  get_provider s "gemini" = Some p ->
  client p = true ->
  model p = Some label ->
  get_provider s label = None ->
  gemini_generate_content B prompt (Z.min max_tokens 8192) = Raises msg ->
  is_rate_limit msg = true ->
  let result := _generate_with_gemini B prompt max_tokens now s in
  let s' := snd (fst result) in
  fst (fst result) = Throws msg /\
  providers s' = providers s /\
  provider_failures s' = provider_failures s /\
  last_error s' = last_error s /\
  provider_enabled s' = <[label := false]> (provider_enabled s) /\
  last_failure_time s' = <[label := Some now]> (last_failure_time s) /\
  rate_limits s' =
    <[label := {| reset_time := now + 600; attempts := attempts_of s label + 1 |}]>
      (rate_limits s) /\
  enabled_of s' "gemini" = enabled_of s "gemini" /\
  failure_time_of s' "gemini" = failure_time_of s "gemini".
Proof.
  intros Hp Hk Hm Hl Hb Hrl result s'. subst s' result.
  unfold _generate_with_gemini. rewrite Hp, Hk. simpl negb. cbv iota zeta.
  rewrite Hb, Hrl, Hm. cbn [fst snd].
  assert (Hne : label <> "gemini") by (intros ->; congruence).
  unfold _handle_rate_limit. cbv zeta.
  assert (Hrec : forall S, get_provider S label = None ->
                   _record_failure label msg now S = S).
  { intros S HS. unfold _record_failure, is_provider. by rewrite HS. }
  rewrite Hrec by exact Hl. sred.
  repeat split; try done.
  - unfold enabled_of. sred. by rewrite lookup_insert_ne.
  - unfold failure_time_of. sred. by rewrite lookup_insert_ne.
Qed.

Lemma gemini_label_witness :
  enabled_of (snd (fst (_generate_with_gemini gemini_throttled "prompt" 10 7 fresh))) "gemini"
    = enabled_of fresh "gemini" /\
  provider_failures (snd (fst (_generate_with_gemini gemini_throttled "prompt" 10 7 fresh)))
    = provider_failures fresh.
Proof.
  assert (Hp : exists p, get_provider fresh "gemini" = Some p /\ client p = true /\
                         model p = Some "gemini-2.0-flash-exp")
    by (vm_compute; eauto 10).
  destruct Hp as (p & Hp & Hk & Hm).
  assert (Hl : get_provider fresh "gemini-2.0-flash-exp" = None) by reflexivity.
  assert (Hb : gemini_generate_content gemini_throttled "prompt" (Z.min 10 8192)
               = Raises "429 quota exceeded") by reflexivity.
  assert (Hr : is_rate_limit "429 quota exceeded" = true) by reflexivity.
  destruct (gemini_files_rate_limit_under_model_label gemini_throttled "prompt" 10 7 fresh
              p _ _ Hp Hk Hm Hl Hb Hr) as (_ & _ & Hf & _ & _ & _ & _ & He & _).
  split; [exact He|exact Hf].
Defined.

(** ** The status report *)

Lemma lookup_provider_In n p ps :
  NoDup (map fst ps) -> In (n, p) ps -> lookup_provider n ps = Some p.
Proof.
  induction ps as [|[m q] r IH]; simpl; [done|].
  intros Hnd Hin. apply NoDup_cons in Hnd as [Hm Hnd].
  destruct Hin as [[= -> ->]|Hin]; [by rewrite String.eqb_refl|].
  destruct (String.eqb_spec m n) as [->|Hne]; [|by apply IH].
  exfalso. apply Hm. apply list_elem_of_In. apply in_map_iff. by exists (n, p).
Qed.

(** X10.  In a reachable state [get_provider_status] lists the four
    providers in order, and for each of them: it reports ['available']
    exactly when the provider is eligible for selection; the consecutive
    failures it reports are never negative, below the threshold when the
    provider is enabled, and positive when it is disabled. *)
Theorem status_reports_what_selection_sees s :
  reachable s ->
  map fst (get_provider_status s) = known_names /\
  forall name st, In (name, st) (get_provider_status s) ->
    status_available st = eligible [] s name /\
    status_consecutive_failures st = failures_of s name /\
    status_error_count st = error_count_of s name /\
    0 <= status_consecutive_failures st /\
    (status_enabled st = true -> status_consecutive_failures st < max_failures) /\
    (status_enabled st = false -> 0 < status_consecutive_failures st).
Proof.
  intros Hr. apply reachable_good in Hr as [[Hn Hk Ht] [H0 Hth Hd]].
  unfold get_provider_status.
  split; [rewrite map_map; exact Hn|].
  intros name st Hin. apply in_map_iff in Hin as ([n p] & [= <- <-] & Hin).
  cbn [fst snd status_available status_consecutive_failures status_error_count
       status_enabled].
  assert (Hnd : NoDup (map fst (providers s))).
  { unfold provider_names in Hn. rewrite Hn.
    apply NoDup_ListNoDup. repeat constructor; simpl; intuition congruence. }
  pose proof (lookup_provider_In n p (providers s) Hnd Hin) as Hp.
  assert (Hnm : In n (provider_names s)).
  { unfold provider_names. apply in_map_iff. by exists (n, p). }
  assert (Hlt : enabled_of s n = true -> failures_of s n < max_failures).
  { intros He. destruct (Z.lt_ge_cases (failures_of s n) max_failures) as [|Hge]; [done|].
    rewrite (Hth n Hge) in He. done. }
  repeat split; auto.
  - rewrite eligible_nil. unfold healthy, available_of, get_provider. rewrite Hp.
    destruct (available p); [|done]. simpl.
    destruct (enabled_of s n) eqn:He; [|done]. simpl.
    symmetry. apply Z.ltb_lt. by apply Hlt.
  - unfold error_count_of, get_provider. by rewrite Hp.
Qed.

Lemma status_witness :
  reachable gemini_limited /\
  map fst (get_provider_status gemini_limited) = known_names.
Proof.
  split; [exact reachable_gemini_limited|].
  exact (proj1 (status_reports_what_selection_sees _ reachable_gemini_limited)).
Defined.

(** ** [generate_content] *)

Lemma hand_over_not_generated name e now s invoked0 sent :
  match returned (hand_over name e now s invoked0 sent) with
  | Generated _ _ => False
  | _ => True
  end.
Proof.
  unfold hand_over. by destruct (_handle_provider_failure _ _ _ _) as [[?|] ?].
Qed.

Lemma generated_is_nonempty {T} B method prompt (kw : kwargs T) now s r p :
  returned (_try_providers B method prompt kw now s) = Generated r p ->
  nonempty r = true.
Proof.
  unfold _try_providers.
  destruct (get_best_provider now s) as [[name|] s1]; [|done].
  destruct (nonempty name); simpl negb; cbv iota; [|done].
  destruct (String.eqb method "generate").
  - destruct (_call_provider B name prompt _ now s1) as [[out s2] sent].
    destruct out as [[t|]|msg]; [destruct (nonempty t) eqn:Ht|..];
      try (intros Hg; by apply hand_over_returned in Hg).
    simpl. intros Heq. by injection Heq as <- <-.
  - intros Hg. by apply hand_over_returned in Hg.
Qed.

(** X11.  [generate_content] leaves the state [generate_analysis] leaves
    and returns the response text exactly when [generate_analysis] returned
    a response dict; the text is then not empty.  When the dispatch handed
    back a provider name instead, [generate_content] returns [None]. *)
Theorem generate_content_returns_text_only {T} B prompt max_tokens (temperature : T)
    now s :
  let analysis := generate_analysis B prompt max_tokens temperature now s in
  let content := generate_content B prompt max_tokens temperature now s in
  snd content = final analysis /\
  (forall t, fst content = Some t <->
             exists p, returned analysis = Generated t p) /\
  (forall t, fst content = Some t -> nonempty t = true) /\
  (forall name, returned analysis = NextProvider name -> fst content = None).
Proof.
  intros analysis content. subst content. unfold generate_content. fold analysis.
  cbn [fst snd]. split; [done|].
  assert (Hne : forall r p, returned analysis = Generated r p -> nonempty r = true).
  { intros r p. apply generated_is_nonempty. }
  destruct (returned analysis) as [|r p|name] eqn:Hret.
  - repeat split; try done. intros (p & Hp). done.
  - rewrite (Hne r p eq_refl). repeat split; try done.
    + intros [= <-]. by exists p.
    + intros (q & [= -> ->]). done.
    + intros t [= <-]. by apply (Hne r p).
  - repeat split; try done. intros (p & Hp). done.
Qed.

(** ** How a failed request is counted *)

Lemma record_failure_error_count name e now s :
  In name (provider_names s) ->
  error_count_of (_record_failure name e now s) name = error_count_of s name + 1.
Proof.
  intros Hp. apply is_provider_names in Hp.
  unfold _record_failure. rewrite Hp. simpl negb. cbv iota.
  unfold is_provider in Hp. destruct (get_provider s name) as [p|] eqn:Hget; [|done].
  case_match; norm; by rewrite String.eqb_refl, Hget.
Qed.

Lemma reachable_gemini_model s p :
  reachable s -> get_provider s "gemini" = Some p -> model p <> None.
Proof.
  intros Hr. revert p. induction Hr as [hg ho hq g q o h|op now s Hr IH]; intros p Hp.
  - vm_compute in Hp. injection Hp as <-. done.
  - destruct (across_any_step same_registry same_registry_respected
                (fun n s => same_registry_alter n (set_error_count 0) s (fun p => eq_refl))
                op now s) as (_ & _ & He).
    specialize (He "gemini"). rewrite Hp in He.
    destruct (get_provider s "gemini") as [p0|] eqn:Hp0; [|done].
    simpl in He. unfold registry_entry in He. injection He as _ _ Hm _ _ _.
    rewrite Hm. by apply IH.
Qed.

Lemma call_provider_throws B name prompt mt now s msg s2 sent :
  In name recording_names ->
  (forall p, get_provider s "gemini" = Some p -> model p <> None) ->
  _call_provider B name prompt mt now s = (Throws msg, s2, sent) ->
  sent <> [] -> is_rate_limit msg = false ->
  s2 = _record_failure name msg now s.
Proof.
  unfold recording_names, _call_provider.
  intros [<-|[<-|[<-|[]]]] Hmodel; simpl;
    unfold _generate_with_gemini, _generate_with_groq, _generate_with_openai,
      record_and_raise;
    repeat case_match; intros Heq Hs Hrl; inversion Heq; subst;
    try done; try congruence.
  all: exfalso; by eapply Hmodel.
Qed.

(** X14.  In a reachable state, when the provider selected is gemini,
    groq or openai and its request fails with an error that is not a
    rate-limit one, the failure is recorded twice: the run leaves
    [_record_failure] applied twice to the ledger of [get_best_provider],
    so consecutive failures and [error_count] both grow by 2; the provider
    is the only one invoked and the value returned is the name the
    selection gives with that provider excluded. *)
Theorem failed_request_is_recorded_twice {T} B prompt max_tokens (temperature : T)
    now s name msg s2 sent :
  reachable s ->
  fst (get_best_provider now s) = Some name ->
  In name recording_names ->
  _call_provider B name prompt max_tokens now (recover now s) = (Throws msg, s2, sent) ->
  sent <> [] ->
  is_rate_limit msg = false ->
  let run := generate_analysis B prompt max_tokens temperature now s in
  final run = _record_failure name msg now (_record_failure name msg now (recover now s)) /\
  failures_of (final run) name = failures_of (recover now s) name + 2 /\
  error_count_of (final run) name = error_count_of (recover now s) name + 2 /\
  invoked run = [name] /\
  returned run = answer_of_name (select [name] (final run)).
Proof.
  intros Hr Hbest Hin Hcall Hsent Hrl run. subst run.
  apply reachable_good in Hr as Hg.
  pose proof (good_recover now s Hg) as Hg1.
  assert (Hmodel : forall p, get_provider (recover now s) "gemini" = Some p ->
                             model p <> None).
  { intros p. apply reachable_gemini_model.
    rewrite <- get_best_provider_state. apply (reachable_step GetBestProvider now s Hr). }
  pose proof (call_provider_throws B name prompt max_tokens now _ msg s2 sent
                Hin Hmodel Hcall Hsent Hrl) as ->.
  set (s1 := recover now s) in *.
  pose proof (good_record_failure name msg now s1 Hg1) as Hg2.
  pose proof (good_record_failure name msg now _ Hg2) as Hg3.
  assert (Hfinal :
    generate_analysis B prompt max_tokens temperature now s =
    {| returned := answer_of_name
                     (select [name] (_record_failure name msg now
                                       (_record_failure name msg now s1)));
       final := _record_failure name msg now (_record_failure name msg now s1);
       invoked := [name]; requests := sent |}).
  { unfold generate_analysis, _try_providers.
    cbn [kw_max_tokens default from_option id].
    rewrite get_best_provider_select in *. cbn [fst] in Hbest. rewrite Hbest.
    fold s1.
    assert (Hne : nonempty name = true)
      by (destruct Hin as [<-|[<-|[<-|[]]]]; reflexivity).
    rewrite Hne. simpl negb. cbv iota.
    change (String.eqb "generate" "generate") with true. cbv iota.
    rewrite Hcall. unfold hand_over, _handle_provider_failure. rewrite Hne.
    rewrite get_next_select.
    unfold record_provider_failure. rewrite Hrl.
    rewrite reconcile_next_shaped by apply Hg3. done. }
  rewrite Hfinal. cbn [final returned invoked].
  assert (Hn1 : In name (provider_names s1)).
  { rewrite (shaped_names _ (proj1 Hg1)).
    destruct Hin as [<-|[<-|[<-|[]]]]; simpl; auto. }
  assert (Hn2 : In name (provider_names (_record_failure name msg now s1)))
    by (by rewrite record_failure_names).
  repeat split.
  - rewrite !record_failure_count by done. lia.
  - rewrite !record_failure_error_count by done. lia.
Qed.

Lemma failed_request_witness :
  failures_of (final first_request) "gemini" = failures_of (recover 1000 fresh) "gemini" + 2.
Proof.
  assert (Hr : reachable fresh) by (unfold fresh; apply reachable_init).
  assert (Hb : fst (get_best_provider 1000 fresh) = Some "gemini")
    by (vm_compute; reflexivity).
  assert (Hin : In "gemini" recording_names) by (left; reflexivity).
  assert (Hc : exists s2,
             _call_provider (gemini_raises "boom") "gemini" "prompt" 1000 1000
               (recover 1000 fresh)
             = (Throws "boom", s2,
                [{| to_provider := "gemini"; with_prompt := "prompt"; with_tokens := 1000 |}]))
    by (vm_compute; eauto).
  destruct Hc as [s2 Hc].
  assert (Hs : [{| to_provider := "gemini"; with_prompt := "prompt"; with_tokens := 1000 |}]
               <> []) by discriminate.
  exact (proj1 (proj2 (failed_request_is_recorded_twice (gemini_raises "boom") "prompt"
                         1000 tt 1000 fresh "gemini" "boom" s2 _ Hr Hb Hin Hc Hs eq_refl))).
Defined.

(** ** A manager just built *)

(** X15.  A manager just built, whatever came up: both selection
    functions return the first provider that came up in rank order
    (gemini, groq, openai, huggingface), or [None] when none did, and leave
    the state unchanged; every provider is enabled with no failure, no
    error counted and no failure time. *)
Theorem new_manager_selects_by_rank hg ho hq g q o h now :
  let s := init_state hg ho hq g q o h in
  get_best_provider now s = (first_up g q o h, s) /\
  _get_next_available_provider [] now s = (first_up g q o h, s) /\
  forall name, In name (provider_names s) ->
    enabled_of s name = true /\ failures_of s name = 0 /\
    error_count_of s name = 0 /\ failure_time_of s name = None.
Proof.
  intros s. subst s.
  pose proof (good_init hg ho hq g q o h) as Hg.
  split; [|split].
  - rewrite get_best_provider_select.
    assert (Hsel : select [] (init_state hg ho hq g q o h) = first_up g q o h)
      by (destruct g, q, o, h; vm_compute; reflexivity).
    unfold recover. rewrite reconcile_best_shaped by apply Hg.
    destruct (List.filter _ _) eqn:Hf; [|by rewrite Hsel].
    assert (Hreset : global_reset (init_state hg ho hq g q o h)
                     = init_state hg ho hq g q o h).
    { apply fold_left_fixed. intros n _. unfold reset_step.
      assert (failures_of (init_state hg ho hq g q o h) n = 0) as ->
        by (unfold failures_of; simpl; apply default_dict_of_names).
      by destruct (negb _). }
    by rewrite Hreset, Hsel.
  - rewrite get_next_select, reconcile_next_shaped by apply Hg.
    f_equal. destruct g, q, o, h; vm_compute; reflexivity.
  - intros name Hin. simpl in Hin.
    destruct Hin as [<-|[<-|[<-|[<-|[]]]]];
      unfold enabled_of, failures_of, failure_time_of, error_count_of; simpl;
      rewrite !default_dict_of_names; done.
Qed.

(** X16.  In a reachable state, when huggingface is selected and every
    one of its models answers 503, the request costs it exactly one
    consecutive failure and one [error_count]: one request per model is
    sent, nothing is recorded by the provider function, and the dispatch
    records the final exception once. *)
Theorem loading_huggingface_is_recorded_once {T} B prompt max_tokens (temperature : T)
    now s config :
  reachable s ->
  fst (get_best_provider now s) = Some "huggingface" ->
  get_provider (recover now s) "huggingface" = Some config ->
  client config = true ->
  (current_model_index config < length (models config))%nat ->
  all_models_loading B prompt max_tokens (models config) ->
  let run := generate_analysis B prompt max_tokens temperature now s in
  failures_of (final run) "huggingface" = failures_of (recover now s) "huggingface" + 1 /\
  error_count_of (final run) "huggingface"
    = error_count_of (recover now s) "huggingface" + 1 /\
  length (requests run) = length (models config) /\
  invoked run = ["huggingface"] /\
  returned run = answer_of_name (select ["huggingface"] (final run)).
Proof.
  intros Hr Hbest Hc Hk Hi Hload run. subst run.
  apply reachable_good in Hr as Hg.
  pose proof (good_recover now s Hg) as Hg1.
  set (s1 := recover now s) in *.
  destruct (generate_with_huggingface_loading B prompt max_tokens now s1 config
              Hc Hk Hi Hload) as (Hout & Hlen & (Hf & _) & Hsame).
  pose proof (good_call_provider B "huggingface" prompt max_tokens now s1 Hg1) as Hg2.
  pose proof (call_provider_names B "huggingface" prompt max_tokens now s1) as Hn2.
  change (_call_provider B "huggingface" prompt max_tokens now s1)
    with (_generate_with_huggingface B prompt max_tokens now s1) in Hg2, Hn2.
  unfold generate_analysis, _try_providers.
  cbn [kw_max_tokens default from_option id].
  rewrite get_best_provider_select in *. cbn [fst] in Hbest. rewrite Hbest. fold s1.
  change (negb (nonempty "huggingface")) with false. cbv iota.
  change (String.eqb "generate" "generate") with true. cbv iota.
  change (_call_provider B "huggingface" prompt max_tokens now s1)
    with (_generate_with_huggingface B prompt max_tokens now s1).
  destruct (_generate_with_huggingface B prompt max_tokens now s1) as [[out s2] sent].
  cbn [fst snd] in *. subst out.
  unfold hand_over, _handle_provider_failure.
  change (nonempty "huggingface") with true. cbv iota.
  rewrite get_next_select. unfold record_provider_failure.
  change (is_rate_limit "Todos os modelos HuggingFace falharam") with false. cbv iota.
  change (String.eqb "huggingface" "gemini") with false.
  pose proof (good_record_failure "huggingface" "Todos os modelos HuggingFace falharam"
                now s2 Hg2) as Hg3.
  rewrite reconcile_next_shaped by apply Hg3.
  cbn [final requests invoked returned].
  assert (Hin : In "huggingface" (provider_names s2)).
  { rewrite (shaped_names _ (proj1 Hg2)). simpl. auto 10. }
  rewrite record_failure_count, record_failure_error_count by done.
  unfold failures_of, error_count_of. rewrite Hf, Hsame. done.
Qed.

Lemma loading_huggingface_witness :
  failures_of (final (generate_analysis all_loading "prompt" 10 tt 7 only_huggingface))
    "huggingface" = failures_of (recover 7 only_huggingface) "huggingface" + 1.
Proof.
  assert (Hr : reachable only_huggingface) by (unfold only_huggingface; apply reachable_init).
  assert (Hb : fst (get_best_provider 7 only_huggingface) = Some "huggingface")
    by (vm_compute; reflexivity).
  assert (Hp : exists c, get_provider (recover 7 only_huggingface) "huggingface" = Some c /\
                         client c = true /\
                         models c = ["HuggingFaceH4/zephyr-7b-beta"; "google/flan-t5-base"] /\
                         current_model_index c = 0%nat)
    by (vm_compute; eauto 10).
  destruct Hp as (c & Hc & Hk & Hm & Hi).
  assert (Hlt : (current_model_index c < length (models c))%nat)
    by (rewrite Hi, Hm; simpl; lia).
  assert (Hload : all_models_loading all_loading "prompt" 10 (models c))
    by (intros label _; by exists "", "loading").
  exact (proj1 (loading_huggingface_is_recorded_once all_loading "prompt" 10 tt 7
                  only_huggingface c Hr Hb Hc Hk Hlt Hload)).
Defined.
